(** * Verification of the Veo3 prompt generator batch job (gen.py)

    A shallow embedding of [gen.py]: the cookie loaders, the record store
    adapter ([fetch_pending_records], [update_record]), the prompt renderer
    ([generate_prompt_text]), the response cleaner ([clean_json_response]),
    the batch coordinator ([process_records_with_api]) with its retry loop,
    and the entry point ([main]).

    Python strings are modelled as [string]; a character stands for a code
    point below 256.  The database table is a list of rows in storage order.
    The external collaborators (the generation backend, the JSON decoder of
    the standard library, database faults and the database clock) are
    parameters of the coordinator, so every theorem holds for all of their
    behaviours; a small concrete decoder is provided to run the embedding on
    explicit inputs. *)

From Stdlib Require Import ZArith Ascii String Bool Lia Permutation.
From stdpp Require Import base option list sorting gmap strings.

Set Warnings "-register-all".

Local Open Scope Z_scope.

(** ** Python string operations used by the program *)

Module PyStr.

Definition len (s : string) : nat := String.length s.

(** [str.isspace] on the code points below 256. *)
Definition isspace (c : ascii) : bool :=
  let n := nat_of_ascii c in
  (Nat.leb 9 n && Nat.leb n 13) || (Nat.leb 28 n && Nat.leb n 32)
  || Nat.eqb n 133 || Nat.eqb n 160.

Fixpoint lstrip (s : string) : string :=
  match s with
  | EmptyString => EmptyString
  | String c s' => if isspace c then lstrip s' else s
  end.

Fixpoint rstrip (s : string) : string :=
  match s with
  | EmptyString => EmptyString
  | String c s' =>
      match rstrip s' with
      | EmptyString => if isspace c then EmptyString else String c EmptyString
      | r => String c r
      end
  end.

(** [s.strip()] *)
Definition strip (s : string) : string := lstrip (rstrip s).

(** [s[n:]] *)
Definition drop (n : nat) (s : string) : string :=
  String.substring n (len s - n) s.

(** [s[:n]] *)
Definition take (n : nat) (s : string) : string := String.substring 0 n s.

(** [s[a:b]] for non-negative indices *)
Definition slice (a b : Z) (s : string) : string :=
  String.substring (Z.to_nat a) (Z.to_nat (b - a)) s.

(** [s.startswith(p)] *)
Definition startswith (p s : string) : bool := String.prefix p s.

(** [s.endswith(p)] *)
Definition endswith (p s : string) : bool :=
  Nat.leb (len p) (len s) && String.eqb (drop (len s - len p) s) p.

Fixpoint index_of (c : ascii) (s : string) : option nat :=
  match s with
  | EmptyString => None
  | String a s' => if Ascii.eqb a c then Some 0%nat else S <$> index_of c s'
  end.

Fixpoint rindex_of (c : ascii) (s : string) : option nat :=
  match s with
  | EmptyString => None
  | String a s' =>
      match rindex_of c s' with
      | Some i => Some (S i)
      | None => if Ascii.eqb a c then Some 0%nat else None
      end
  end.

(** [s.find(c)]: the first index of [c], or -1 *)
Definition find (c : ascii) (s : string) : Z :=
  match index_of c s with Some i => Z.of_nat i | None => -1 end.

(** [s.rfind(c)]: the last index of [c], or -1 *)
Definition rfind (c : ascii) (s : string) : Z :=
  match rindex_of c s with Some i => Z.of_nat i | None => -1 end.

(** [sub in s] *)
Fixpoint contains (sub s : string) : bool :=
  String.prefix sub s ||
  match s with
  | EmptyString => false
  | String _ s' => contains sub s'
  end.

(** [s.split(sep)] for a one-character separator *)
Fixpoint split (sep : ascii) (s : string) : list string :=
  match s with
  | EmptyString => [EmptyString]
  | String a s' =>
      if Ascii.eqb a sep then EmptyString :: split sep s'
      else match split sep s' with
           | h :: t => String a h :: t
           | [] => [String a EmptyString]
           end
  end.

(** [s.split(sep, 1)] when [sep] occurs in [s]: the text before the first
    separator and the text after it. *)
Fixpoint split_once (sep : ascii) (s : string) : option (string * string) :=
  match s with
  | EmptyString => None
  | String a s' =>
      if Ascii.eqb a sep then Some (EmptyString, s')
      else match split_once sep s' with
           | Some (k, v) => Some (String a k, v)
           | None => None
           end
  end.

(** Test inputs are written with ['] for the double quote and [|] for a
    line feed. *)
Fixpoint q (s : string) : string :=
  match s with
  | EmptyString => EmptyString
  | String a s' =>
      String (if Ascii.eqb a "'"%char then ascii_of_nat 34
              else if Ascii.eqb a "|"%char then ascii_of_nat 10 else a) (q s')
  end.

End PyStr.

(** ** Response cleaner *)

Definition clean_json_response (text : string) : string :=
  let text := PyStr.strip text in
  let text := if PyStr.startswith "```json" text then PyStr.drop 7 text else text in
  let text := if PyStr.startswith "```" text then PyStr.drop 3 text else text in
  let text := if PyStr.endswith "```" text
              then PyStr.take (PyStr.len text - 3) text else text in
  let start_index := PyStr.find "{"%char text in
  let end_index := PyStr.rfind "}"%char text in
  let text :=
    if negb (start_index =? -1) && negb (end_index =? -1) && (end_index >? start_index)
    then PyStr.slice start_index (end_index + 1) text
    else text in
  PyStr.strip text.

(** ** Exceptions *)

(** A raised exception: its class name and the text [str(e)]. *)
Record exception := Exc { exc_type : string; exc_str : string }.

(** ** Cookie loaders *)

(** [fs] maps a path to the text [f.read()] returns for it; a path outside
    the map does not exist.  A path that exists and cannot be opened or
    decoded (a directory, a file without read permission, bytes that are
    not UTF-8) is outside the model: [fs] holds the readable text files. *)
Definition load_cookies_from_file (fs : gmap string string) (filepath : string)
  : exception + gmap string string :=
  match fs !! filepath with
  | None => inl (Exc "FileNotFoundError" ("Cookies file not found: " +:+ filepath))
  | Some content =>
      let cookie_string := PyStr.strip content in
      inr (foldl
             (λ (cookies : gmap string string) cookie,
                let cookie := PyStr.strip cookie in
                if PyStr.contains "=" cookie then
                  match PyStr.split_once "="%char cookie with
                  | Some (key, value) => <[key := value]> cookies
                  | None => cookies
                  end
                else cookies)
             ∅ (PyStr.split ";"%char cookie_string))
  end.

(** [environ] is the process environment; [None] is Python's [None]. *)
Definition load_cookies_from_env (environ : gmap string string)
  : option (gmap string string) :=
  let cookie_string := default "" (environ !! "GEMINI_COOKIES") in
  if decide (cookie_string = "") then None
  else
    let cookies :=
      foldl
        (λ (cookies : gmap string string) cookie,
           let cookie := PyStr.strip cookie in
           if PyStr.contains "=" cookie then
             match PyStr.split_once "="%char cookie with
             | Some (key, value) => <[key := value]> cookies
             | None => cookies
             end
           else cookies)
        ∅ (PyStr.split ";"%char cookie_string) in
    if decide (cookies = ∅) then None else Some cookies.

(** The mapping as the specification words it: the segments between [;],
    each stripped, each split at its first [=]; a later key replaces an
    earlier one. *)
Definition cookie_pairs (s : string) : list (string * string) :=
  omap (λ segment, PyStr.split_once "="%char (PyStr.strip segment))
       (PyStr.split ";"%char s).

Definition cookie_mapping (s : string) : gmap string string :=
  foldl (λ (m : gmap string string) kv, <[kv.1 := kv.2]> m) ∅ (cookie_pairs s).

(** ** JSON values and the Python operations applied to them *)

Inductive json :=
| JNull
| JBool (b : bool)
| JNumber (literal : string)
| JString (s : string)
| JArray (items : list json)
| JObject (members : list (string * json)).

(** Result of [json.loads]. *)
Inductive loads_result :=
| Parsed (v : json)
| DecodeError (e : exception)     (* json.JSONDecodeError *)
| LoadsRaised (e : exception).    (* any other exception, e.g. RecursionError *)

Definition is_json_string (key : string) (v : json) : bool :=
  match v with JString s => String.eqb s key | _ => false end.

(** [key in v]: key membership for a dict, substring test for a str, element
    test for a list; the other types are not iterable. *)
Definition py_in (key : string) (v : json) : exception + bool :=
  match v with
  | JObject members => inr (bool_decide (key ∈ members.*1))
  | JString s => inr (PyStr.contains key s)
  | JArray items => inr (existsb (is_json_string key) items)
  | JNull => inl (Exc "TypeError" "argument of type 'NoneType' is not iterable")
  | JBool _ => inl (Exc "TypeError" "argument of type 'bool' is not iterable")
  | JNumber _ => inl (Exc "TypeError" "argument of type 'int' is not iterable")
  end.

(** The value a dict built from the members holds for [key]: the last one. *)
Fixpoint dict_get (key : string) (members : list (string * json)) : option json :=
  match members with
  | [] => None
  | (k, v) :: rest =>
      match dict_get key rest with
      | Some v' => Some v'
      | None => if String.eqb k key then Some v else None
      end
  end.

(** [v[key]] for a str key *)
Definition py_getitem (v : json) (key : string) : exception + json :=
  match v with
  | JObject members =>
      match dict_get key members with
      | Some x => inr x
      | None => inl (Exc "KeyError" key)
      end
  | JString _ => inl (Exc "TypeError" "string indices must be integers")
  | JArray _ => inl (Exc "TypeError" "list indices must be integers or slices, not str")
  | _ => inl (Exc "TypeError" "object is not subscriptable")
  end.

(** [x[:80]] inside an f-string: a str or a list can be sliced. *)
Definition py_slice_ok (x : json) : exception + unit :=
  match x with
  | JString _ | JArray _ => inr ()
  | JObject _ => inl (Exc "TypeError" "unhashable type: 'slice'")
  | _ => inl (Exc "TypeError" "object is not subscriptable")
  end.

(** [list(v.keys())] *)
Definition py_keys (v : json) : exception + list string :=
  match v with
  | JObject members => inr members.*1
  | _ => inl (Exc "AttributeError" "object has no attribute 'keys'")
  end.

(** ** The products_ai table *)

Module products_ai.
(** A nullable column is an [option]. *)
Record row := Row {
  id : Z;
  title : option string;
  image_data : option string;
  image_status : option bool;
  crawl_status : option bool;
  prompt_veo3 : option string;
  updated_at : option Z
}.
End products_ai.
Import products_ai.

(** A row as [RETURNING id, title, image_data] hands it to the job. *)
Record record := Record_ {
  rec_id : Z;
  rec_title : option string;
  rec_image_data : option string
}.

Definition returning (r : row) : record :=
  Record_ (products_ai.id r) (title r) (image_data r).

(** The WHERE clause of the inner SELECT: [prompt_veo3 IS NULL AND
    image_status = TRUE AND crawl_status IS NULL]. *)
Definition eligible (r : row) : Prop :=
  prompt_veo3 r = None ∧ image_status r = Some true ∧ crawl_status r = None.

Global Instance eligible_dec r : Decision (eligible r).
Proof. unfold eligible. apply _. Defined.

(** [SELECT id ... ORDER BY id ASC LIMIT limit] *)
Definition select_pending (table : list row) (limit : nat) : list Z :=
  take limit (merge_sort Z.le (products_ai.id <$> filter eligible table)).

(** [SET crawl_status = TRUE] *)
Definition set_crawl_status (r : row) : row :=
  Row (products_ai.id r) (title r) (image_data r) (image_status r)
      (Some true) (prompt_veo3 r) (updated_at r).

(** [UPDATE ... WHERE id IN (...) RETURNING ...]: the table is scanned in
    storage order; every row whose id is in the subquery result is updated
    and returned. *)
Definition update_returning (table : list row) (limit : nat)
  : list row * list record :=
  let ids := select_pending table limit in
  ((λ r, if decide (products_ai.id r ∈ ids) then set_crawl_status r else r) <$> table,
   returning <$> filter (λ r, products_ai.id r ∈ ids) table).

(** The largest value of the server's [bigint], the type of a LIMIT. *)
Definition bigint_max : Z := 9223372036854775807.

(** [SET prompt_veo3 = %s, updated_at = NOW() WHERE id = %s] *)
Definition update_prompt (table : list row) (record_id : Z) (p : string) (now : Z)
  : list row :=
  (λ r, if decide (products_ai.id r = record_id)
        then Row (products_ai.id r) (title r) (image_data r) (image_status r)
                 (crawl_status r) (Some p) (Some now)
        else r) <$> table.

(** ** External collaborators, events and the state of a run *)

(** The exceptions of the collaborators (the error a backend call raises,
    the error inside a database transaction, an error of the decoder) are
    errors of the libraries: subclasses of [Exception], which is what the
    handlers of the job, all of them [except Exception], catch.  An
    interruption of the task from outside (its cancellation, a
    [KeyboardInterrupt]), which these handlers let through, is not a
    behaviour of a collaborator and is not modelled inside the job; what
    [main] does with it is in [main_with]. *)
Inductive api_outcome :=
| Response (text : string)        (* [response.text] of a completed call *)
| ApiRaised (e : exception).      (* the call raised *)

Record environment := Environment {
  (** the n-th call of [client.generate_content], with the prompt it gets *)
  generate_content : nat → string → api_outcome;
  (** [json.loads] *)
  json_loads : string → loads_result;
  (** the exception, if any, raised inside the n-th database transaction *)
  db_fault : nat → option exception;
  (** the value of [NOW()] in the n-th database transaction *)
  NOW : nat → Z;
  (** the text of [VEO3_PROMPT_TEMPLATE] after the [{title}] placeholder, as
      [format] renders it *)
  VEO3_PROMPT_TEMPLATE_tail : string
}.

Inductive event :=
| EvClaim (limit : Z)                     (* the claim statement is executed *)
| EvRecord (record_id : Z)                (* the loop body starts on a record *)
| EvGenerate (prompt : string)            (* [client.generate_content] is called *)
| EvSleep (seconds : nat)                 (* [asyncio.sleep] *)
| EvCookieWarning                         (* the cookie-expiration notice *)
| EvUpdate (record_id : Z) (payload : string).   (* [update_record] is called *)

Record world := World {
  db : list row;            (* committed contents of products_ai *)
  api_calls : nat;          (* calls of generate_content made so far *)
  db_ops : nat;             (* database transactions run so far *)
  trace : list event        (* what happened so far, oldest first *)
}.

Definition emit (ev : event) (w : world) : world :=
  World (db w) (api_calls w) (db_ops w) (trace w ++ [ev]).

Definition max_prompt_retries : nat := 4.

(** The text of [VEO3_PROMPT_TEMPLATE] before the [{title}] placeholder. *)
Definition VEO3_PROMPT_TEMPLATE_head : string :=
  PyStr.q ("You are an Elite AI Commercial Director.|"
    +:+ "Your task is to generate a 2-part video prompt must be **22 to 28 words** per part to JSON Only for Google Veo 3 based on the raw product title. DO NOT PRINT TO CHAT PROCESSING LOGIC FOR EVERY STEPS.|"
    +:+ "|**Input Product Title:** '").

(** [str(x)] of a nullable text value *)
Definition py_str (x : option string) : string := default "None" x.

(** What the validation block of the retry loop (lines 268-290) does with
    one response. *)
Inductive validation :=
| EchoedInstructions
| MalformedJson
| MissingFields
| ValidationPassed
| ValidationRaised (valid_set : bool) (e : exception).
    (* an exception other than JSONDecodeError left the block;
       [valid_set]: valid_response_received had been set to True *)

(** What one pass through the body of the retry loop ends with. *)
Inductive flow :=
| Continue
| Break
| Raise (e : exception).

Record locals := Locals {
  valid_response_received : bool;
  cleaned_response : string
}.

(** The session-invalid signature of an error text (line 297). *)
Definition session_invalid (str_error : string) : bool :=
  PyStr.contains "Invalid response" str_error || PyStr.contains "406" str_error.

Section Job.

Context (env : environment).

(** *** Record store adapter *)

(** In both functions an error inside the transaction is one the database
    driver raises, a subclass of [Exception], and [conn.rollback()] in the
    except branch is taken to succeed. *)
Definition fetch_pending_records (conn : world) (limit : Z)
  : list record * world :=
  let conn := emit (EvClaim limit) conn in
  let n := db_ops conn in
  match db_fault env n with
  | Some _ =>
      (* except: conn.rollback(); return [] *)
      ([], World (db conn) (api_calls conn) (S n) (trace conn))
  | None =>
      if (limit <? 0) || (bigint_max <? limit) then
        (* the server refuses a negative LIMIT and one beyond its bigint:
           same except branch *)
        ([], World (db conn) (api_calls conn) (S n) (trace conn))
      else
        let '(table, records) := update_returning (db conn) (Z.to_nat limit) in
        (records, World table (api_calls conn) (S n) (trace conn))
  end.

Definition update_record (conn : world) (record_id : Z) (prompt_veo3 : string)
  : world :=
  let conn := emit (EvUpdate record_id prompt_veo3) conn in
  let n := db_ops conn in
  match db_fault env n with
  | Some _ =>
      (* except: conn.rollback() *)
      World (db conn) (api_calls conn) (S n) (trace conn)
  | None =>
      World (update_prompt (db conn) record_id prompt_veo3 (NOW env n))
            (api_calls conn) (S n) (trace conn)
  end.

(** *** Prompt renderer *)

(** [str.format] with the single named field [title] does not raise for a
    text or a null title, so the except branch is never taken. *)
Definition generate_prompt_text (r : record) : option string :=
  Some (VEO3_PROMPT_TEMPLATE_head +:+ py_str (rec_title r) +:+ VEO3_PROMPT_TEMPLATE_tail env).

(** *** Validation block *)

(** ["part1_prompt" in parsed_json and "part2_prompt" in parsed_json] *)
Definition required_fields_present (parsed_json : json) : exception + bool :=
  match py_in "part1_prompt" parsed_json with
  | inl e => inl e
  | inr false => inr false
  | inr true => py_in "part2_prompt" parsed_json
  end.

(** [parsed_json[key][:80]] in the narration of a passed validation *)
Definition show_part (parsed_json : json) (key : string) : exception + unit :=
  match py_getitem parsed_json key with
  | inl e => inl e
  | inr x => py_slice_ok x
  end.

Definition validate_response (cleaned_response response_text : string)
  : validation :=
  if PyStr.contains "You are an Elite AI" response_text then EchoedInstructions
  else
    match json_loads env cleaned_response with
    | DecodeError _ => MalformedJson
    | LoadsRaised e => ValidationRaised false e
    | Parsed parsed_json =>
        match required_fields_present parsed_json with
        | inl e => ValidationRaised false e
        | inr true =>
            (* valid_response_received = True, then the two prints *)
            match show_part parsed_json "part1_prompt" with
            | inl e => ValidationRaised true e
            | inr _ =>
                match show_part parsed_json "part2_prompt" with
                | inl e => ValidationRaised true e
                | inr _ => ValidationPassed
                end
            end
        | inr false =>
            match py_keys parsed_json with
            | inl e => ValidationRaised false e
            | inr _ => MissingFields
            end
        end
    end.

(** *** Generation session: the retry loop *)

(** [except Exception as e] of the loop body (lines 292-305), for an error
    of a collaborator *)
Definition api_error_handler (e : exception) (retry_attempt : nat) (w : world)
  : flow * world :=
  let str_error := exc_str e in
  let w := if session_invalid str_error then emit EvCookieWarning w else w in
  if (retry_attempt <? max_prompt_retries - 1)%nat then (Continue, w)
  else (Raise e, w).

(** One pass through the body of [for retry_attempt in range(...)] *)
Definition attempt (prompt_text : string) (retry_attempt : nat) (l : locals)
    (w : world) : flow * locals * world :=
  let w := if (0 <? retry_attempt)%nat then emit (EvSleep 3) w else w in
  let n := api_calls w in
  let w := emit (EvGenerate prompt_text)
                (World (db w) (S n) (db_ops w) (trace w)) in
  match generate_content env n prompt_text with
  | ApiRaised e =>
      let '(f, w) := api_error_handler e retry_attempt w in (f, l, w)
  | Response response_text =>
      let cleaned := clean_json_response response_text in
      match validate_response cleaned response_text with
      | EchoedInstructions | MalformedJson | MissingFields =>
          (Continue, Locals (valid_response_received l) cleaned, w)
      | ValidationPassed => (Break, Locals true cleaned, w)
      | ValidationRaised valid_set e =>
          let '(f, w) := api_error_handler e retry_attempt w in
          (f, Locals (valid_set || valid_response_received l) cleaned, w)
      end
  end.

(** The loop over the remaining attempt numbers; [inl e]: the exception
    left the loop. *)
Fixpoint retry_loop (prompt_text : string) (attempts : list nat) (l : locals)
    (w : world) : (exception + locals) * world :=
  match attempts with
  | [] => (inr l, w)
  | retry_attempt :: rest =>
      match attempt prompt_text retry_attempt l w with
      | (Continue, l, w) => retry_loop prompt_text rest l w
      | (Break, l, w) => (inr l, w)
      | (Raise e, l, w) => (inl e, w)
      end
  end.

(** *** Batch coordinator *)

(** The pacing at the end of the loop body (lines 320-323) *)
Definition pace (idx total : nat) (w : world) : world :=
  if (idx <? total)%nat then emit (EvSleep 15) w else w.

(** The body of [for idx, record in enumerate(records, 1)]; [Some e]: the
    exception left the loop and the function. *)
Definition process_record (idx total : nat) (r : record) (w : world)
  : option exception * world :=
  let w := emit (EvRecord (rec_id r)) w in
  match rec_title r with
  | None =>
      (* line 223: len(record['title']) outside of any try *)
      (Some (Exc "TypeError" "object of type 'NoneType' has no len()"), w)
  | Some _ =>
      match generate_prompt_text r with
      | None => (None, w)                                   (* continue *)
      | Some prompt_text =>
          if decide (prompt_text = "") then (None, w)       (* continue *)
          else
            match retry_loop prompt_text (seq 0 max_prompt_retries)
                             (Locals false "") w with
            | (inl e, w) =>
                (* except Exception at the record boundary (line 317) *)
                (None, pace idx total w)
            | (inr l, w) =>
                if valid_response_received l
                then (None, pace idx total
                              (update_record w (rec_id r) (cleaned_response l)))
                else (None, w)                              (* continue *)
            end
      end
  end.

Fixpoint records_loop (idx total : nat) (records : list record) (w : world)
  : option exception * world :=
  match records with
  | [] => (None, w)
  | r :: rest =>
      match process_record idx total r w with
      | (Some e, w) => (Some e, w)
      | (None, w) => records_loop (S idx) total rest w
      end
  end.

(** [records[:k]] *)
Definition py_take (k : Z) (records : list record) : list record :=
  if k <? 0 then take (Z.to_nat (Z.of_nat (length records) + k)) records
  else take (Z.to_nat k) records.

(** [limit_records] is [None] or an integer. *)
Definition process_records_with_api (conn : world) (limit_records : option Z)
  : option exception * world :=
  let '(records, conn) := fetch_pending_records conn 30 in
  match records with
  | [] => (None, conn)
  | _ =>
      let records :=
        match limit_records with
        | Some k => if k =? 0 then records else py_take k records
        | None => records
        end in
      records_loop 1 (length records) records conn
  end.

End Job.

(** ** A concrete decoder, for running the embedding on explicit inputs

    A recursive-descent reading of the JSON grammar as [json.loads] accepts
    it: objects, arrays, strings with the one-character escapes, numbers and
    the literals.  It reports every failure as a decode error. *)

Module MiniJson.

Definition dquote : ascii := ascii_of_nat 34.
Definition backslash : ascii := ascii_of_nat 92.

Definition is_ws (c : ascii) : bool :=
  let n := nat_of_ascii c in
  Nat.eqb n 32 || Nat.eqb n 9 || Nat.eqb n 10 || Nat.eqb n 13.

Fixpoint skip_ws (s : string) : string :=
  match s with
  | EmptyString => EmptyString
  | String c s' => if is_ws c then skip_ws s' else s
  end.

Definition is_digit (c : ascii) : bool :=
  let n := nat_of_ascii c in Nat.leb 48 n && Nat.leb n 57.

(** the longest prefix of digits, and the rest *)
Fixpoint digits (s : string) : string * string :=
  match s with
  | EmptyString => (EmptyString, EmptyString)
  | String c s' =>
      if is_digit c then let '(d, r) := digits s' in (String c d, r)
      else (EmptyString, s)
  end.

Definition unescape (c : ascii) : option ascii :=
  if Ascii.eqb c dquote then Some dquote
  else if Ascii.eqb c backslash then Some backslash
  else if Ascii.eqb c "/"%char then Some "/"%char
  else if Ascii.eqb c "n"%char then Some (ascii_of_nat 10)
  else if Ascii.eqb c "t"%char then Some (ascii_of_nat 9)
  else if Ascii.eqb c "r"%char then Some (ascii_of_nat 13)
  else if Ascii.eqb c "b"%char then Some (ascii_of_nat 8)
  else if Ascii.eqb c "f"%char then Some (ascii_of_nat 12)
  else None.

(** the characters of a string up to its closing quote, and the rest *)
Fixpoint str_body (s : string) : option (string * string) :=
  match s with
  | EmptyString => None
  | String c rest =>
      if Ascii.eqb c dquote then Some (EmptyString, rest)
      else if Ascii.eqb c backslash then
        match rest with
        | String e rest' =>
            match unescape e, str_body rest' with
            | Some ch, Some (x, r) => Some (String ch x, r)
            | _, _ => None
            end
        | EmptyString => None
        end
      else if Nat.ltb (nat_of_ascii c) 32 then None
      else
        match str_body rest with
        | Some (x, r) => Some (String c x, r)
        | None => None
        end
  end.

(** a number: optional minus, integer part, optional fraction, optional
    exponent *)
Definition number (s : string) : option (json * string) :=
  let '(sign, s1) :=
    match s with
    | String "-" r => ("-", r)
    | _ => ("", s)
    end in
  let '(int_part, s2) :=
    match s1 with
    | String "0" r => ("0", r)
    | _ => digits s1
    end in
  if decide (int_part = "") then None
  else
    let '(frac, s3) :=
      match s2 with
      | String "." r =>
          let '(d, r') := digits r in
          if decide (d = "") then ("", s2) else ("." +:+ d, r')
      | _ => ("", s2)
      end in
    let '(expo, s4) :=
      match s3 with
      | String e r =>
          if Ascii.eqb e "e"%char || Ascii.eqb e "E"%char then
            let '(sg, r1) :=
              match r with
              | String "+" r1 => ("+", r1)
              | String "-" r1 => ("-", r1)
              | _ => ("", r)
              end in
            let '(d, r2) := digits r1 in
            if decide (d = "") then ("", s3) else ("e" +:+ sg +:+ d, r2)
          else ("", s3)
      | EmptyString => ("", s3)
      end in
    Some (JNumber (sign +:+ int_part +:+ frac +:+ expo), s4).

Definition literal (s : string) : option (json * string) :=
  if String.prefix "null" s then Some (JNull, PyStr.drop 4 s)
  else if String.prefix "true" s then Some (JBool true, PyStr.drop 4 s)
  else if String.prefix "false" s then Some (JBool false, PyStr.drop 5 s)
  else if String.prefix "NaN" s then Some (JNumber "NaN", PyStr.drop 3 s)
  else if String.prefix "Infinity" s then Some (JNumber "Infinity", PyStr.drop 8 s)
  else if String.prefix "-Infinity" s then Some (JNumber "-Infinity", PyStr.drop 9 s)
  else number s.

Fixpoint value (fuel : nat) (s : string) : option (json * string) :=
  match fuel with
  | O => None
  | S fuel =>
      match skip_ws s with
      | String c rest =>
          if Ascii.eqb c "{"%char then
            match skip_ws rest with
            | String "}" r => Some (JObject [], r)
            | _ => members fuel rest []
            end
          else if Ascii.eqb c "["%char then
            match skip_ws rest with
            | String "]" r => Some (JArray [], r)
            | _ => elements fuel rest []
            end
          else if Ascii.eqb c dquote then
            match str_body rest with
            | Some (x, r) => Some (JString x, r)
            | None => None
            end
          else literal (String c rest)
      | EmptyString => None
      end
  end
with members (fuel : nat) (s : string) (acc : list (string * json))
  : option (json * string) :=
  match fuel with
  | O => None
  | S fuel =>
      match skip_ws s with
      | String c rest =>
          if Ascii.eqb c dquote then
            match str_body rest with
            | Some (k, r) =>
                match skip_ws r with
                | String ":" r =>
                    match value fuel r with
                    | Some (v, r) =>
                        match skip_ws r with
                        | String "," r => members fuel r (acc ++ [(k, v)])
                        | String "}" r => Some (JObject (acc ++ [(k, v)]), r)
                        | _ => None
                        end
                    | None => None
                    end
                | _ => None
                end
            | None => None
            end
          else None
      | EmptyString => None
      end
  end
with elements (fuel : nat) (s : string) (acc : list json)
  : option (json * string) :=
  match fuel with
  | O => None
  | S fuel =>
      match value fuel s with
      | Some (v, r) =>
          match skip_ws r with
          | String "," r => elements fuel r (acc ++ [v])
          | String "]" r => Some (JArray (acc ++ [v]), r)
          | _ => None
          end
      | None => None
      end
  end.

Definition loads (s : string) : loads_result :=
  match value (2 * String.length s + 2) s with
  | Some (v, rest) =>
      if decide (skip_ws rest = "") then Parsed v
      else DecodeError (Exc "JSONDecodeError" "Extra data")
  | None => DecodeError (Exc "JSONDecodeError" "Expecting value")
  end.

End MiniJson.

(** ** Observations on traces *)

(** The ids of the records the loop body started on, oldest first. *)
Definition started (evs : list event) : list Z :=
  omap (λ ev, match ev with EvRecord i => Some i | _ => None end) evs.

(** The persist calls, oldest first. *)
Definition persisted (evs : list event) : list (Z * string) :=
  omap (λ ev, match ev with EvUpdate i p => Some (i, p) | _ => None end) evs.

(** The record an event is about, if any. *)
Definition subject (ev : event) : option Z :=
  match ev with
  | EvRecord i | EvUpdate i _ => Some i
  | _ => None
  end.

(** What a generation session may emit. *)
Definition session_event (ev : event) : Prop :=
  match ev with
  | EvGenerate _ | EvCookieWarning => True
  | EvSleep n => n = 3%nat
  | _ => False
  end.

(** What one attempt emits when the backend answers. *)
Definition attempt_events (prompt_text : string) (retry_attempt : nat) : list event :=
  (if (0 <? retry_attempt)%nat then [EvSleep 3] else []) ++ [EvGenerate prompt_text].


(** The n-th backend call, made with prompt [p], does not end in a passed
    validation. *)
Definition not_passed (env : environment) (p : string) (n : nat) : Prop :=
  match generate_content env n p with
  | Response t => validate_response env (clean_json_response t) t ≠ ValidationPassed
  | ApiRaised _ => True
  end.

(** The cookie-expiration notice the handler emits for an exception. *)
Definition warning (e : exception) : list event :=
  if session_invalid (exc_str e) then [EvCookieWarning] else [].

(** What the processing of the record [rid] may emit after its start. *)
Definition record_event (rid : Z) (ev : event) : Prop :=
  match ev with
  | EvGenerate _ | EvCookieWarning | EvSleep _ => True
  | EvUpdate i _ => i = rid
  | EvClaim _ | EvRecord _ => False
  end.

(** The text [clean_json_response] works on once the surrounding whitespace
    and the code-fence markers are removed (lines 177-185). *)
Definition unfenced (text : string) : string :=
  let text := PyStr.strip text in
  let text := if PyStr.startswith "```json" text then PyStr.drop 7 text else text in
  let text := if PyStr.startswith "```" text then PyStr.drop 3 text else text in
  if PyStr.endswith "```" text then PyStr.take (PyStr.len text - 3) text else text.

(** The first [{] comes before the last [}] (line 191). *)
Definition braces_in_order (text : string) : bool :=
  negb (PyStr.find "{"%char text =? -1) && negb (PyStr.rfind "}"%char text =? -1)
  && (PyStr.rfind "}"%char text >? PyStr.find "{"%char text).

(** ** Concrete inputs *)

(** A backend that answers its n-th call with the n-th entry of a script,
    the concrete decoder, a database without faults. *)
Definition scripted (outcomes : list api_outcome) : environment :=
  Environment
    (λ n _, default (ApiRaised (Exc "TimeoutError" "no answer")) (outcomes !! n))
    MiniJson.loads
    (λ _, None)
    (λ n, 1000 + Z.of_nat n)
    (PyStr.q "'|**Output Format (JSON Only):**|").

(** A row the claim query selects. *)
Definition pending (i : Z) (t : option string) : row :=
  Row i t (Some "img") (Some true) None None None.

(** A connection to a database holding [table], before anything happened. *)
Definition fresh (table : list row) : world := World table 0 0 [].

(** The prompt the scripted environments render for a title. *)
Definition prompt_for (t : string) : string :=
  VEO3_PROMPT_TEMPLATE_head +:+ t +:+ PyStr.q "'|**Output Format (JSON Only):**|".

Definition good_answer : string :=
  PyStr.q "```json|{'part1_prompt':'a','part2_prompt':'b'}|```".

Definition good_payload : string :=
  PyStr.q "{'part1_prompt':'a','part2_prompt':'b'}".

Definition e406 : exception :=
  Exc "APIError" "Failed to generate contents. Invalid response data received (406)".

(** Sample tables and backends. *)
Definition two_pending : list row := [pending 1 (Some "A"); pending 2 (Some "B")].

Definition two_claimed : list row :=
  [Row 1 (Some "A") (Some "img") (Some true) (Some true) None None;
   Row 2 (Some "B") (Some "img") (Some true) (Some true) None None].

Definition always_406 : environment := scripted (replicate 8 (ApiRaised e406)).

Definition always_garbage : environment := scripted (replicate 4 (Response "x")).

Definition null_fields : string :=
  PyStr.q "{'part1_prompt': null, 'part2_prompt': null}".

Definition mixed_table : list row :=
  [pending 7 (Some "G");
   Row 2 (Some "B") (Some "img") (Some true) (Some true) (Some good_payload) (Some 5);
   pending 3 None;
   Row 4 (Some "D") (Some "img") (Some false) None None None;
   pending 1 (Some "A")].

Definition three_pending : list row :=
  [pending 1 (Some "A"); pending 2 (Some "B"); pending 3 (Some "C")].

Definition always_good : environment := scripted (replicate 3 (Response good_answer)).

Definition record_A : record := Record_ 1 (Some "A") (Some "img").

(** ** The entry point *)

(** What the process around the job provides. *)
Record host := Host {
  (** [os.environ] after [load_dotenv()] *)
  os_environ : gmap string string;
  (** the files that exist, with the text [f.read()] returns *)
  os_files : gmap string string;
  COOKIES_FILE : string;
  (** [psycopg2.connect(DATABASE_URL)]: the connection, or nothing when it
      raises *)
  connect : option world;
  (** the exception, if any, raised by [GeminiClient(...)] or [client.init] *)
  client_init : option exception;
  (** the exception, if any, raised by [client.close] *)
  client_close : option exception
}.

(** The resources [main] acquires and releases, oldest first. *)
Inductive lifecycle :=
| LcConnect                          (* [get_db_connection] returned a connection *)
| LcClientInit (secure_1psid : string) (secure_1psidts : option string)
                                     (* the client is initialised *)
| LcProcess (raised : option exception)
                                     (* [process_records_with_api] ended *)
| LcClientClose                      (* [client.close()] returned *)
| LcConnClose.                       (* [conn.close()] *)

(** [get_db_connection]: the exception of a failed connection is caught and
    [None] is returned. *)
Definition get_db_connection (h : host) : option world := connect h.

(** Python truth of a value that is [None] or a dict. *)
Definition truthy (cookies : option (gmap string string)) : bool :=
  match cookies with
  | Some c => bool_decide (c ≠ ∅)
  | None => false
  end.

(** The classes of the standard library that derive from [BaseException]
    and not from [Exception]: [except Exception] lets them through. *)
Definition outside_Exception : list string :=
  ["BaseException"; "KeyboardInterrupt"; "SystemExit"; "GeneratorExit";
   "CancelledError"].

Definition is_Exception (e : exception) : bool :=
  bool_decide (exc_type e ∉ outside_Exception).

(** [except KeyboardInterrupt] and [except Exception] around the call of
    the job in [main] *)
Definition caught_by_main (e : exception) : bool :=
  bool_decide (exc_type e = "KeyboardInterrupt") || is_Exception e.

(** [main], given what the call of [process_records_with_api] does on the
    connection: the exception that leaves [main], if any, what it acquired
    and released, and the connection state at the end, if a connection was
    made. *)
Definition main_with (job : world → option exception * world) (h : host)
  : option exception * list lifecycle * option world :=
  let cookies := load_cookies_from_env (os_environ h) in
  let cookies :=
    if truthy cookies then cookies
    else
      match load_cookies_from_file (os_files h) (COOKIES_FILE h) with
      | inr c => Some c
      | inl _ => cookies                      (* except Exception: print *)
      end in
  if negb (truthy cookies) then (None, [], None)
  else
    match cookies ≫= (.!! "__Secure-1PSID") with
    | None => (None, [], None)
    | Some secure_1psid =>
        let secure_1psidts := cookies ≫= (.!! "__Secure-1PSIDTS") in
        match get_db_connection h with
        | None => (None, [], None)
        | Some conn =>
            match client_init h with
            | Some _ => (None, [LcConnect; LcConnClose], Some conn)
            | None =>
                let '(raised, conn) := job conn in
                let lc := [LcConnect; LcClientInit secure_1psid secure_1psidts;
                           LcProcess raised] in
                match client_close h with
                | Some e =>
                    (* finally: client.close() raises, conn.close() is not
                       reached *)
                    (Some e, lc, Some conn)
                | None =>
                    (match raised with
                     | Some e => if caught_by_main e then None else Some e
                     | None => None
                     end,
                     lc ++ [LcClientClose; LcConnClose], Some conn)
                end
            end
        end
    end.

(** [main] *)
Definition main (env : environment) (h : host)
  : option exception * list lifecycle * option world :=
  main_with (λ conn, process_records_with_api env conn None) h.

(** ** Further observations *)

(** [cookies] is what a cookie loader returns for the text [s], read from
    [GEMINI_COOKIES] or from a file. *)
Definition loaded (s : string) (cookies : gmap string string) : Prop :=
  (∃ environ, environ !! "GEMINI_COOKIES" = Some s
              ∧ load_cookies_from_env environ = Some cookies)
  ∨ (∃ fs filepath, fs !! filepath = Some s
                    ∧ load_cookies_from_file fs filepath = inr cookies).

(** [x] is a contiguous part of [s]. *)
Definition infix (x s : string) : Prop := ∃ pre post, s = pre +:+ x +:+ post.

(** The columns the job never writes. *)
Definition fixed_part (r : row) : Z * option string * option string * option bool :=
  (products_ai.id r, title r, image_data r, image_status r).

(** The columns [update_record] never writes. *)
Definition claim_part (r : row)
  : Z * option string * option string * option bool * option bool :=
  (products_ai.id r, title r, image_data r, image_status r, crawl_status r).

(** What the loop over the records does to a row: nothing, or it leaves a
    prompt in it. *)
Definition unwritten (r r' : row) : Prop := r' = r ∨ prompt_veo3 r' ≠ None.

(** The prompts of the backend calls, oldest first. *)
Definition generated (evs : list event) : list string :=
  omap (λ ev, match ev with EvGenerate p => Some p | _ => None end) evs.

(** The events of the loop over the records, given record by record: the
    id of each started record with what its processing emitted after the
    start. *)
Definition segments (segs : list (Z * list event)) : list event :=
  segs ≫= (λ s, EvRecord s.1 :: s.2).

(** A JSON value that [x[:80]] accepts. *)
Definition sliceable (x : json) : Prop :=
  match x with
  | JString _ | JArray _ => True
  | _ => False
  end.

(** Sample inputs. *)
Definition all_done : list row :=
  [Row 1 (Some "A") (Some "img") (Some true) (Some true) (Some good_payload) (Some 5);
   Row 2 (Some "B") (Some "img") (Some false) None None None].

(** A database whose every transaction fails. *)
Definition db_down : environment :=
  Environment
    (λ _ _, ApiRaised (Exc "TimeoutError" "no answer"))
    MiniJson.loads
    (λ _, Some (Exc "OperationalError" "server closed the connection unexpectedly"))
    (λ n, 1000 + Z.of_nat n)
    (PyStr.q "'|**Output Format (JSON Only):**|").

(** A backend that fails twice before it answers well. *)
Definition flaky : environment :=
  scripted [Response "x"; ApiRaised e406; Response good_answer].

Definition record_B : record := Record_ 2 (Some "B") (Some "img").

Definition record_untitled : record := Record_ 3 None (Some "img").

(** A host that gets its cookies from the environment, one that has a
    cookie file without the session cookie. *)
Definition ci_host : host :=
  Host {[ "GEMINI_COOKIES" := "__Secure-1PSID=abc; __Secure-1PSIDTS=def" ]}
       ∅ "cookies.txt" (Some (fresh two_pending)) None None.

Definition anonymous_host : host :=
  Host ∅ {[ "cookies.txt" := "NID=1; theme=dark" ]} "cookies.txt"
       (Some (fresh two_pending)) None None.


(** * String facts *)

Module PyStrFacts.
Import PyStr.

Lemma rstrip_cons a s :
  rstrip (String a s) =
    if decide (rstrip s = EmptyString)
    then (if isspace a then EmptyString else String a EmptyString)
    else String a (rstrip s).
Proof. simpl. destruct (rstrip s); by case_decide. Qed.

Lemma lstrip_idem s : lstrip (lstrip s) = lstrip s.
Proof.
  induction s as [|a s IH]; simpl; [done|].
  destruct (isspace a) eqn:Ha; [done|]. simpl. by rewrite Ha.
Qed.

Lemma rstrip_idem s : rstrip (rstrip s) = rstrip s.
Proof.
  induction s as [|a s IH]; [done|].
  rewrite rstrip_cons. case_decide as Hr.
  - destruct (isspace a) eqn:Ha; [done|]. simpl. by rewrite Ha.
  - rewrite rstrip_cons, IH. by case_decide.
Qed.

Lemma lstrip_rstrip s : lstrip (rstrip s) = rstrip (lstrip s).
Proof.
  induction s as [|a s IH]; [done|].
  rewrite rstrip_cons. simpl lstrip at 2.
  destruct (isspace a) eqn:Ha.
  - case_decide as Hr.
    + by rewrite <- IH, Hr.
    + simpl. by rewrite Ha.
  - rewrite rstrip_cons, Ha. case_decide; simpl; by rewrite Ha.
Qed.

Lemma strip_lstrip s : strip (lstrip s) = strip s.
Proof. unfold strip. by rewrite <- lstrip_rstrip, lstrip_idem. Qed.

Lemma strip_rstrip s : strip (rstrip s) = strip s.
Proof. unfold strip. by rewrite rstrip_idem. Qed.

Lemma split_nonempty c s : split c s ≠ [].
Proof.
  destruct s as [|a s]; simpl; [done|].
  destruct (Ascii.eqb a c); [done|]. by destruct (split c s).
Qed.

(** A string without separator splits into itself. *)
Lemma split_singleton c s x : split c s = [x] → x = s.
Proof.
  revert x. induction s as [|a s IH]; simpl; intros x Hx; [congruence|].
  destruct (Ascii.eqb a c).
  - injection Hx as _ Hx. by apply split_nonempty in Hx.
  - destruct (split c s) as [|h t] eqn:Hs; [by apply split_nonempty in Hs|].
    injection Hx as <- ->. by rewrite (IH h).
Qed.

Lemma isspace_neq a c : isspace a = true → isspace c = false → Ascii.eqb a c = false.
Proof. intros Ha Hc. apply Ascii.eqb_neq. intros ->. congruence. Qed.

(** Stripping the left end of a string strips the left end of its first
    segment and nothing else. *)
Lemma split_lstrip c s :
  isspace c = false →
  split c (lstrip s) =
    match split c s with h :: t => lstrip h :: t | [] => [] end.
Proof.
  intros Hc. induction s as [|a s IH]; [done|].
  simpl lstrip. destruct (isspace a) eqn:Ha.
  - simpl split. rewrite (isspace_neq _ _ Ha Hc), IH.
    destruct (split c s) eqn:Hs; [by apply split_nonempty in Hs|].
    simpl. by rewrite Ha.
  - simpl split. destruct (Ascii.eqb a c); [done|].
    destruct (split c s) eqn:Hs; [by apply split_nonempty in Hs|].
    simpl. by rewrite Ha.
Qed.

(** Stripping the right end of a string strips the right end of its last
    segment and nothing else. *)
Lemma split_rstrip c s :
  isspace c = false →
  ∃ init last, split c s = init ++ [last]
               ∧ split c (rstrip s) = init ++ [rstrip last].
Proof.
  intros Hc. induction s as [|a s (init & last & Hs & Hr)].
  { by exists [], EmptyString. }
  rewrite rstrip_cons. simpl split at 1. destruct (Ascii.eqb a c) eqn:Hac.
  - apply Ascii.eqb_eq in Hac as ->. rewrite Hc.
    exists (EmptyString :: init), last. rewrite Hs. split; [done|].
    case_decide as He.
    + rewrite He in Hr. simpl in Hr. simpl. rewrite Ascii.eqb_refl. by rewrite <- Hr.
    + simpl. by rewrite Ascii.eqb_refl, Hr.
  - case_decide as He.
    + rewrite He in Hr. destruct init as [|i init]; simpl in Hr;
        [|destruct init; discriminate].
      injection Hr as Hl. rewrite Hs. simpl.
      exists [], (String a last). split; [done|].
      rewrite rstrip_cons, <- Hl. rewrite decide_True by done.
      destruct (isspace a) eqn:Ha; [done|]. simpl. by rewrite Hac.
    + simpl split. rewrite Hac, Hs, Hr. destruct init as [|i init]; simpl.
      * exists [], (String a last). split; [done|].
        rewrite rstrip_cons. simpl in Hs. apply split_singleton in Hs as ->.
        by rewrite decide_False.
      * by exists (String a i :: init), last.
Qed.

Lemma fmap_strip_split_strip c s :
  isspace c = false → strip <$> split c (strip s) = strip <$> split c s.
Proof.
  intros Hc. unfold strip at 2. rewrite split_lstrip by done.
  destruct (split_rstrip c s Hc) as (init & last & -> & ->).
  destruct init as [|i init]; simpl.
  - by rewrite strip_lstrip, strip_rstrip.
  - rewrite strip_lstrip, !fmap_app. simpl. by rewrite strip_rstrip.
Qed.

(** [c in s] for a one-character [c] holds exactly when [s] can be split
    at [c]. *)
Lemma prefix_char c a s :
  String.prefix (String c EmptyString) (String a s) = bool_decide (c = a).
Proof.
  simpl. destruct (ascii_dec c a) as [->|Hne].
  - rewrite bool_decide_eq_true_2 by done. by destruct s.
  - by rewrite bool_decide_eq_false_2.
Qed.

Lemma contains_char c s :
  contains (String c EmptyString) s = bool_decide (is_Some (split_once c s)).
Proof.
  induction s as [|a s IH]; [done|].
  cbn [contains]. rewrite prefix_char, IH. cbn [split_once].
  destruct (decide (c = a)) as [<-|Hne].
  - rewrite (bool_decide_eq_true_2 (c = c)) by done.
    rewrite Ascii.eqb_refl. symmetry. apply bool_decide_eq_true. eauto.
  - rewrite (bool_decide_eq_false_2 (c = a)) by done.
    assert (Ascii.eqb a c = false) as -> by (apply Ascii.eqb_neq; congruence).
    simpl. destruct (split_once c s) as [[k v]|] eqn:Hs.
    + rewrite !bool_decide_eq_true_2 by eauto. done.
    + rewrite !bool_decide_eq_false_2 by (by intros [? ?]). done.
Qed.

Lemma split_once_lstrip c s :
  isspace c = false → is_Some (split_once c s) → is_Some (split_once c (lstrip s)).
Proof.
  intros Hc. induction s as [|a s IH]; [done|].
  simpl. destruct (isspace a) eqn:Ha.
  - rewrite (isspace_neq _ _ Ha Hc).
    destruct (split_once c s) as [[??]|]; [eauto|by intros [? ?]].
  - simpl. done.
Qed.

Lemma split_once_rstrip c s :
  isspace c = false → is_Some (split_once c s) → is_Some (split_once c (rstrip s)).
Proof.
  intros Hc. induction s as [|a s IH]; [done|].
  rewrite rstrip_cons. simpl split_once at 1.
  destruct (Ascii.eqb a c) eqn:Hac.
  - apply Ascii.eqb_eq in Hac as ->. rewrite Hc. intros _.
    case_decide; simpl; rewrite Ascii.eqb_refl; eauto.
  - destruct (split_once c s) as [[k v]|] eqn:Hs; [|by intros [? ?]].
    intros _. destruct IH as [[k' v'] Hkv]; [eauto|].
    case_decide as He; [by rewrite He in Hkv|].
    simpl. rewrite Hac, Hkv. eauto.
Qed.

Lemma split_once_strip c s :
  isspace c = false → is_Some (split_once c s) → is_Some (split_once c (strip s)).
Proof. intros Hc Hs. by apply split_once_lstrip, split_once_rstrip. Qed.

End PyStrFacts.


(** * Cookie loaders *)

Section Cookies.

Local Abbreviation cookie_step :=
  (λ (cookies : gmap string string) cookie,
     let cookie := PyStr.strip cookie in
     if PyStr.contains "=" cookie then
       match PyStr.split_once "="%char cookie with
       | Some (key, value) => <[key := value]> cookies
       | None => cookies
       end
     else cookies).

(** The loop of the loaders only looks at the stripped segments. *)
Lemma cookie_loop_strip (l1 l2 : list string) (m : gmap string string) :
  PyStr.strip <$> l1 = PyStr.strip <$> l2 →
  foldl cookie_step m l1 = foldl cookie_step m l2.
Proof.
  revert l2 m. induction l1 as [|x l1 IH]; intros [|y l2] m Heq; try done.
  injection Heq as Hxy Hl. cbn [foldl]. rewrite Hxy. by apply IH.
Qed.

(** The loop inserts the pairs of the segments that hold [=], in order. *)
Lemma cookie_loop_pairs (segments : list string) (m : gmap string string) :
  foldl cookie_step m segments =
  foldl (λ (m : gmap string string) kv, <[kv.1 := kv.2]> m) m
        (omap (λ segment, PyStr.split_once "="%char (PyStr.strip segment)) segments).
Proof.
  revert m. induction segments as [|x l IH]; intros m; [done|].
  cbn [foldl omap list_omap]. rewrite IH. clear IH.
  rewrite (PyStrFacts.contains_char "=").
  destruct (PyStr.split_once "=" (PyStr.strip x)) as [[k v]|] eqn:Hx.
  - by rewrite bool_decide_eq_true_2 by eauto.
  - by rewrite bool_decide_eq_false_2 by (by intros [? ?]).
Qed.

Lemma insert_loop_nonempty (pairs : list (string * string)) (m : gmap string string) :
  m ≠ ∅ → foldl (λ (m : gmap string string) kv, <[kv.1 := kv.2]> m) m pairs ≠ ∅.
Proof.
  revert m. induction pairs as [|kv l IH]; intros m Hm; [done|].
  cbn [foldl]. apply IH, insert_non_empty.
Qed.

Lemma cookie_mapping_nonempty (s : string) :
  cookie_pairs s ≠ [] → cookie_mapping s ≠ ∅.
Proof.
  unfold cookie_mapping. destruct (cookie_pairs s) as [|kv l]; [done|].
  intros _. cbn [foldl]. apply insert_loop_nonempty, insert_non_empty.
Qed.

Lemma segment_with_eq_pairs (s segment : string) :
  segment ∈ PyStr.split ";" s → PyStr.contains "=" segment = true →
  cookie_pairs s ≠ [].
Proof.
  intros Hin Hc. rewrite (PyStrFacts.contains_char "=") in Hc.
  apply bool_decide_eq_true in Hc.
  apply (PyStrFacts.split_once_strip "=") in Hc as [kv Hkv]; [|done].
  intros Hnil.
  assert (kv ∈ cookie_pairs s) as Hkvin
    by (apply list_elem_of_omap; eauto).
  rewrite Hnil in Hkvin. by apply elem_of_nil in Hkvin.
Qed.

(** C10. For every credential string with at least one [;]-separated
    segment holding an [=], the environment loader and the file loader
    parse the string into the same mapping: the one obtained by splitting
    on [;], stripping every segment and splitting it at its first [=]. *)
Theorem cookie_loaders_agree (s : string) (environ fs : gmap string string)
    (filepath : string) :
  (∃ segment, segment ∈ PyStr.split ";" s ∧ PyStr.contains "=" segment = true) →
  environ !! "GEMINI_COOKIES" = Some s →
  fs !! filepath = Some s →
  load_cookies_from_env environ = Some (cookie_mapping s)
  ∧ load_cookies_from_file fs filepath = inr (cookie_mapping s).
Proof.
  intros (segment & Hin & Hc) Henv Hfs.
  pose proof (segment_with_eq_pairs _ _ Hin Hc) as Hpairs.
  assert (s ≠ "") as Hs.
  { intros ->. simpl in Hin. apply list_elem_of_singleton in Hin as ->.
    discriminate. }
  split.
  - unfold load_cookies_from_env. rewrite Henv. cbn [default].
    rewrite decide_False by done.
    rewrite cookie_loop_pairs. fold (cookie_pairs s). fold (cookie_mapping s).
    by rewrite decide_False by by apply cookie_mapping_nonempty.
  - unfold load_cookies_from_file. rewrite Hfs. f_equal.
    rewrite (cookie_loop_strip _ (PyStr.split ";" s))
      by by apply PyStrFacts.fmap_strip_split_strip.
    by rewrite cookie_loop_pairs.
Qed.

Lemma cookie_loaders_agree_witness :
  load_cookies_from_env {[ "GEMINI_COOKIES" := " A=1=2 ;junk; B = x ;" ]}
    = Some (cookie_mapping " A=1=2 ;junk; B = x ;")
  ∧ load_cookies_from_file {[ "cookies.txt" := " A=1=2 ;junk; B = x ;" ]} "cookies.txt"
    = inr (cookie_mapping " A=1=2 ;junk; B = x ;").
Proof.
  apply cookie_loaders_agree.
  - exists " A=1=2 ". split; [apply list_elem_of_here | reflexivity].
  - reflexivity.
  - reflexivity.
Defined.

Example cookie_mapping_example :
  cookie_mapping " A=1=2 ;junk; B = x ;" = {[ "A" := "1=2"; "B " := " x" ]}.
Proof. by vm_compute. Qed.

End Cookies.


(** * Generation session *)

Section Session.

Context (env : environment).

Lemma session_event_attempt_events p i : Forall session_event (attempt_events p i).
Proof. unfold attempt_events. destruct (0 <? i)%nat; repeat constructor. Qed.

Lemma handler_spec e i w :
  ∃ f evs,
    api_error_handler e i w
      = (f, World (db w) (api_calls w) (db_ops w) (trace w ++ evs))
    ∧ Forall session_event evs
    ∧ evs = (if session_invalid (exc_str e) then [EvCookieWarning] else [])
    ∧ f = (if (i <? max_prompt_retries - 1)%nat then Continue else Raise e).
Proof.
  unfold api_error_handler.
  destruct (session_invalid (exc_str e)); destruct (i <? max_prompt_retries - 1)%nat;
    eexists _, _; (split; [|split; [|split; reflexivity]]);
    first [ reflexivity | destruct w; unfold emit; simpl; by rewrite ?app_nil_r
          | repeat constructor ].
Qed.

(** Every pass through the loop body makes one backend call, leaves the
    database alone and emits session events only.  It raises on the last
    attempt number only, and breaks only on a response that passed
    validation, with the cleaned text of that response. *)
Lemma attempt_spec p i l w :
  ∃ f l' evs,
    attempt env p i l w
      = (f, l', World (db w) (S (api_calls w)) (db_ops w)
                      (trace w ++ attempt_events p i ++ evs))
    ∧ Forall session_event evs
    ∧ ((i < max_prompt_retries - 1)%nat → ∀ e, f ≠ Raise e)
    ∧ (f = Break →
       ∃ t, generate_content env (api_calls w) p = Response t
            ∧ validate_response env (clean_json_response t) t = ValidationPassed
            ∧ l' = Locals true (clean_json_response t)).
Proof.
  unfold attempt.
  set (w1 := if (0 <? i)%nat then emit (EvSleep 3) w else w).
  assert (db w1 = db w ∧ api_calls w1 = api_calls w ∧ db_ops w1 = db_ops w
          ∧ trace w1 ++ [EvGenerate p] = trace w ++ attempt_events p i)
    as (Hdb & Hapi & Hops & Htr).
  { unfold w1, attempt_events. destruct (0 <? i)%nat; simpl;
      by rewrite <- ?(assoc_L (++)). }
  set (w2 := emit _ _).
  assert (db w2 = db w ∧ api_calls w2 = S (api_calls w) ∧ db_ops w2 = db_ops w
          ∧ trace w2 = trace w ++ attempt_events p i)
    as (Hdb2 & Hapi2 & Hops2 & Htr2).
  { unfold w2, emit. simpl. by rewrite Hdb, Hapi, Hops, Htr. }
  rewrite Hapi.
  assert (∀ e l0, ∃ f l' evs,
    (let '(f, w) := api_error_handler e i w2 in (f, l0, w))
      = (f, l', World (db w) (S (api_calls w)) (db_ops w)
                      (trace w ++ attempt_events p i ++ evs))
    ∧ Forall session_event evs
    ∧ ((i < max_prompt_retries - 1)%nat → ∀ e, f ≠ Raise e)
    ∧ (f = Break → ∃ t, generate_content env (api_calls w) p = Response t
            ∧ validate_response env (clean_json_response t) t = ValidationPassed
            ∧ l' = Locals true (clean_json_response t))) as Hhandler.
  { intros e l0. destruct (handler_spec e i w2) as (f & evs & -> & Hevs & _ & Hf).
    exists f, l0, evs. rewrite Hdb2, Hapi2, Hops2, Htr2, <- (assoc_L (++)).
    split; [done|]. split; [done|]. subst f. split.
    - intros Hi e'. apply Nat.ltb_lt in Hi. by rewrite Hi.
    - by destruct (i <? max_prompt_retries - 1)%nat. }
  destruct (generate_content env (api_calls w) p) as [t|e] eqn:Hgen; [|apply Hhandler].
  destruct (validate_response env (clean_json_response t) t) eqn:Hv;
    try apply Hhandler;
    eexists _, _, [];
    (split; [rewrite app_nil_r, <- Htr2, <- Hdb2, <- Hapi2, <- Hops2; by destruct w2|]);
    (split; [constructor|]); (split; [done|]); try done.
  intros _. by exists t.
Qed.

(** The retry loop leaves the database alone; it makes at most one call
    per attempt number and emits session events only. *)
Lemma retry_loop_frame p attempts l w :
  ∃ r calls evs,
    retry_loop env p attempts l w
      = (r, World (db w) (api_calls w + calls) (db_ops w) (trace w ++ evs))
    ∧ Forall session_event evs
    ∧ (calls ≤ length attempts)%nat.
Proof.
  revert l w. induction attempts as [|i rest IH]; intros l w.
  { exists (inr l), 0%nat, []. rewrite Nat.add_0_r, app_nil_r.
    split; [by destruct w|]. split; [constructor|]. simpl. lia. }
  cbn [retry_loop].
  destruct (attempt_spec p i l w) as (f & l' & evs & -> & Hevs & _ & _).
  pose proof (session_event_attempt_events p i) as Hae.
  destruct f as [| |e].
  - destruct (IH l' (World (db w) (S (api_calls w)) (db_ops w)
                      (trace w ++ attempt_events p i ++ evs)))
      as (r & calls & evs' & -> & Hevs' & Hcalls).
    exists r, (S calls), ((attempt_events p i ++ evs) ++ evs'). simpl.
    rewrite <- !(assoc_L (++)), Nat.add_succ_r.
    split; [done|]. split; [|lia].
    by rewrite !Forall_app.
  - exists (inr l'), 1%nat, (attempt_events p i ++ evs).
    rewrite Nat.add_1_r. split; [done|]. split; [by rewrite Forall_app|].
    simpl. lia.
  - exists (inl e), 1%nat, (attempt_events p i ++ evs).
    rewrite Nat.add_1_r. split; [done|]. split; [by rewrite Forall_app|].
    simpl. lia.
Qed.



End Session.


(** * Batch coordinator: one record *)

Section Record.

Context (env : environment).

Lemma template_head_cons : ∃ s, VEO3_PROMPT_TEMPLATE_head = String "Y" s.
Proof. eexists. vm_compute. reflexivity. Qed.

(** Rendering never fails and never yields an empty prompt. *)
Lemma render_never_fails (r : record) :
  ∃ p, generate_prompt_text env r = Some p ∧ p ≠ "".
Proof.
  eexists. split; [reflexivity|]. destruct template_head_cons as [s ->]. done.
Qed.

Lemma process_record_unfold idx total (r : record) w t p :
  rec_title r = Some t →
  generate_prompt_text env r = Some p →
  process_record env idx total r w =
    match retry_loop env p (seq 0 max_prompt_retries) (Locals false "")
                     (emit (EvRecord (rec_id r)) w) with
    | (inl e, w) => (None, pace idx total w)
    | (inr l, w) =>
        if valid_response_received l
        then (None, pace idx total (update_record env w (rec_id r) (cleaned_response l)))
        else (None, w)
    end.
Proof.
  intros Ht Hp. unfold process_record. rewrite Ht, Hp.
  destruct (render_never_fails r) as (p' & Hp' & Hne).
  rewrite Hp in Hp'. injection Hp' as <-. by rewrite decide_False.
Qed.

(** A record without title stops the whole loop at the title display,
    before any rendering or generation. *)
Lemma missing_title_raises idx total (r : record) w :
  rec_title r = None →
  process_record env idx total r w
    = (Some (Exc "TypeError" "object of type 'NoneType' has no len()"),
       emit (EvRecord (rec_id r)) w).
Proof. intros Ht. unfold process_record. by rewrite Ht. Qed.


Lemma attempt_continue p i l w :
  (i < max_prompt_retries - 1)%nat →
  not_passed env p (api_calls w) →
  ∃ l' evs,
    attempt env p i l w
      = (Continue, l', World (db w) (S (api_calls w)) (db_ops w)
                             (trace w ++ attempt_events p i ++ evs))
    ∧ Forall session_event evs.
Proof.
  intros Hi Hnp.
  destruct (attempt_spec env p i l w) as (f & l' & evs & Heq & Hevs & Hraise & Hbreak).
  exists l', evs. split; [|done]. rewrite Heq. destruct f as [| |e]; [done| |].
  - destruct Hbreak as (a & Hgen & Hv & _); [done|].
    unfold not_passed in Hnp. by rewrite Hgen in Hnp.
  - by destruct (Hraise Hi e).
Qed.

Lemma attempt_raises p i l w e :
  ¬ (i < max_prompt_retries - 1)%nat →
  generate_content env (api_calls w) p = ApiRaised e →
  attempt env p i l w
    = (Raise e, l, World (db w) (S (api_calls w)) (db_ops w)
                         (trace w ++ attempt_events p i ++ warning e)).
Proof.
  intros Hi Hgen. unfold attempt, attempt_events, warning.
  assert (api_calls (if (0 <? i)%nat then emit (EvSleep 3) w else w) = api_calls w)
    as -> by by destruct (0 <? i)%nat.
  rewrite Hgen. unfold api_error_handler.
  apply Nat.ltb_nlt in Hi. rewrite Hi.
  destruct (session_invalid (exc_str e)); destruct (0 <? i)%nat; destruct w;
    unfold emit; simpl; by rewrite <- ?(assoc_L (++)), ?app_nil_r.
Qed.

(** When no earlier attempt passes and the backend raises on the last
    attempt number, the exception leaves the retry loop. *)
Lemma retry_loop_final_raise p pre last l w e :
  Forall (λ i, (i < max_prompt_retries - 1)%nat) pre →
  ¬ (last < max_prompt_retries - 1)%nat →
  (∀ j, (j < length pre)%nat → not_passed env p (api_calls w + j)) →
  generate_content env (api_calls w + length pre) p = ApiRaised e →
  ∃ evs,
    retry_loop env p (pre ++ [last]) l w
      = (inl e, World (db w) (api_calls w + S (length pre)) (db_ops w)
                      (trace w ++ evs ++ attempt_events p last ++ warning e))
    ∧ Forall session_event evs.
Proof.
  intros Hpre Hlast. revert l w.
  induction Hpre as [|i pre Hi Hpre IH]; intros l w Hnp Hgen.
  { simpl in *. rewrite Nat.add_0_r in Hgen.
    rewrite (attempt_raises _ _ _ _ _ Hlast Hgen). exists [].
    rewrite Nat.add_1_r. split; [done|constructor]. }
  cbn [app retry_loop].
  destruct (attempt_continue p i l w Hi) as (l' & evs1 & -> & Hevs1).
  { specialize (Hnp 0%nat). rewrite Nat.add_0_r in Hnp. apply Hnp. simpl. lia. }
  edestruct IH as (evs & -> & Hevs).
  { intros j Hj. cbn [api_calls]. rewrite Nat.add_succ_comm. apply Hnp. simpl. lia. }
  { cbn [api_calls]. rewrite Nat.add_succ_comm. apply Hgen. }
  assert (Forall session_event ((attempt_events p i ++ evs1) ++ evs)) as HF
    by (rewrite !Forall_app; auto using session_event_attempt_events).
  exists ((attempt_events p i ++ evs1) ++ evs). split; [|done]. cbn.
  by rewrite <- !(assoc_L (++)), !Nat.add_succ_r.
Qed.

(** C1, as the code has it.  When the backend raises on the fourth attempt
    of a record, no earlier attempt having passed, the exception is caught
    at the record boundary, whatever its text: the cookie notice is emitted
    exactly when the text has the session-invalid signature,
    [update_record] is not called and the database is left as it was, the
    pacing sleep follows unless the record is the last one, nothing is
    raised to the caller and the loop goes on with the records that
    follow. *)
Theorem final_attempt_error_is_contained idx total (r : record) rest w t p e :
  rec_title r = Some t →
  generate_prompt_text env r = Some p →
  (∀ j, (j < 3)%nat → not_passed env p (api_calls w + j)) →
  generate_content env (api_calls w + 3) p = ApiRaised e →
  ∃ evs,
    Forall session_event evs
    ∧ let w' :=
        World (db w) (api_calls w + 4) (db_ops w)
              (trace w ++ EvRecord (rec_id r) :: evs
                 ++ [EvSleep 3; EvGenerate p]
                 ++ (if session_invalid (exc_str e) then [EvCookieWarning]
                     else [])
                 ++ (if (idx <? total)%nat then [EvSleep 15] else [])) in
      process_record env idx total r w = (None, w')
      ∧ records_loop env idx total (r :: rest) w
        = records_loop env (S idx) total rest w'.
Proof.
  intros Ht Hp Hnp Hgen.
  destruct (retry_loop_final_raise p [0; 1; 2]%nat 3%nat (Locals false "")
              (emit (EvRecord (rec_id r)) w) e) as (evs & Hloop & Hevs).
  - repeat constructor.
  - unfold max_prompt_retries. lia.
  - intros j Hj. apply Hnp. simpl in Hj. lia.
  - apply Hgen.
  - exists evs. split; [done|]. intros w'.
    assert (process_record env idx total r w = (None, w')) as Hrec.
    { rewrite (process_record_unfold _ _ _ _ _ _ Ht Hp).
      change (seq 0 max_prompt_retries) with ([0; 1; 2] ++ [3])%nat.
      rewrite Hloop. unfold warning. f_equal.
      unfold pace, w'.
      destruct (session_invalid (exc_str e)); destruct (idx <? total)%nat;
        unfold emit; cbn; by rewrite <- !(assoc_L (++)), ?app_nil_r. }
    split; [done|]. cbn [records_loop]. by rewrite Hrec.
Qed.

End Record.


(** * What the retry loop hands to the persist step *)

Section Payload.

Context (env : environment).

Lemma handler_never_breaks e i w : (api_error_handler e i w).1 ≠ Break.
Proof.
  unfold api_error_handler.
  by destruct (_ <? _)%nat.
Qed.

(** One pass, started with the flag unset, on a backend whose responses
    never raise in the narration of a passed validation: either it breaks
    on a response that passed, keeping its cleaned text, or the flag stays
    unset. *)
Lemma attempt_flag p i l w :
  valid_response_received l = false →
  (∀ n t e, generate_content env n p = Response t →
     validate_response env (clean_json_response t) t ≠ ValidationRaised true e) →
  (∃ t w', attempt env p i l w = (Break, Locals true (clean_json_response t), w')
           ∧ generate_content env (api_calls w) p = Response t
           ∧ validate_response env (clean_json_response t) t = ValidationPassed)
  ∨ (∃ f l' w', attempt env p i l w = (f, l', w') ∧ f ≠ Break
                ∧ valid_response_received l' = false).
Proof.
  intros Hl Hnarr. unfold attempt.
  set (w1 := if (0 <? i)%nat then emit (EvSleep 3) w else w).
  assert (api_calls w1 = api_calls w) as -> by (unfold w1; by destruct (0 <? i)%nat).
  set (w2 := emit _ _).
  destruct (generate_content env (api_calls w) p) as [t|e] eqn:Hgen.
  - destruct (validate_response env (clean_json_response t) t) as [| | | |vs e] eqn:Hv.
    + right. by eexists _, _, _.
    + right. by eexists _, _, _.
    + right. by eexists _, _, _.
    + left. by eexists _, _.
    + right. destruct vs; [by destruct (Hnarr _ _ e Hgen)|].
      pose proof (handler_never_breaks e i w2) as Hh.
      destruct (api_error_handler e i w2) as [f w3]. by eexists _, _, _.
  - right. pose proof (handler_never_breaks e i w2) as Hh.
    destruct (api_error_handler e i w2) as [f w3]. by eexists _, _, _.
Qed.

(** On such a backend, a loop that ends with the flag set ends on a
    response that passed validation, and the text it keeps for the persist
    step is the cleaned text of that response. *)
Lemma valid_flag_means_validated p attempts l w l' w' :
  valid_response_received l = false →
  (∀ n t e, generate_content env n p = Response t →
     validate_response env (clean_json_response t) t ≠ ValidationRaised true e) →
  retry_loop env p attempts l w = (inr l', w') →
  valid_response_received l' = true →
  ∃ n t, generate_content env n p = Response t
         ∧ validate_response env (clean_json_response t) t = ValidationPassed
         ∧ cleaned_response l' = clean_json_response t.
Proof.
  intros Hl Hnarr. revert l w Hl.
  induction attempts as [|i rest IH]; intros l w Hl Hloop Hvalid.
  { injection Hloop as <- _. congruence. }
  cbn [retry_loop] in Hloop.
  destruct (attempt_flag p i l w Hl Hnarr)
    as [(t & w1 & Heq & Hgen & Hv) | (f & l1 & w1 & Heq & Hf & Hl1)];
    rewrite Heq in Hloop.
  - injection Hloop as <- _. by exists (api_calls w), t.
  - destruct f as [| |e]; [by eapply IH|done|done].
Qed.

End Payload.


(** * Record store adapter *)

Section Store.

Lemma fmap_inj_on {A B} (f : A → B) (l : list A) x y :
  NoDup (f <$> l) → x ∈ l → y ∈ l → f x = f y → x = y.
Proof.
  induction l as [|a l IH]; intros Hnd Hx Hy Hxy; [by apply elem_of_nil in Hx|].
  rewrite fmap_cons in Hnd. apply NoDup_cons in Hnd as [Ha Hnd].
  apply elem_of_cons in Hx as [->|Hx]; apply elem_of_cons in Hy as [->|Hy].
  - done.
  - destruct Ha. rewrite Hxy. by apply list_elem_of_fmap_2.
  - destruct Ha. rewrite <- Hxy. by apply list_elem_of_fmap_2.
  - by apply IH.
Qed.

Lemma rec_id_returning (l : list row) :
  rec_id <$> (returning <$> l) = products_ai.id <$> l.
Proof. by rewrite <- list_fmap_compose. Qed.

Lemma eligible_ids_NoDup (table : list row) :
  NoDup (products_ai.id <$> table) →
  NoDup (products_ai.id <$> filter eligible table).
Proof.
  intros Hnd. eapply sublist_NoDup; [exact Hnd|].
  apply fmap_sublist, sublist_filter.
Qed.

(** The subquery yields ids of eligible rows, in ascending order, without
    repetition. *)
Lemma select_pending_sorted table n : StronglySorted Z.le (select_pending table n).
Proof.
  unfold select_pending.
  set (L := merge_sort Z.le _).
  assert (StronglySorted Z.le L) as HL by apply (StronglySorted_merge_sort _).
  rewrite <- (take_drop n L) in HL. by apply StronglySorted_app_1_l in HL.
Qed.

Lemma select_pending_NoDup table n :
  NoDup (products_ai.id <$> table) → NoDup (select_pending table n).
Proof.
  intros Hnd. unfold select_pending.
  eapply sublist_NoDup; [|apply sublist_take].
  rewrite merge_sort_Permutation. by apply eligible_ids_NoDup.
Qed.

Lemma select_pending_eligible table n i :
  i ∈ select_pending table n →
  ∃ r, r ∈ table ∧ eligible r ∧ products_ai.id r = i.
Proof.
  unfold select_pending. intros Hi%subseteq_take.
  rewrite merge_sort_Permutation in Hi.
  apply list_elem_of_fmap in Hi as (r & -> & Hr).
  apply list_elem_of_filter in Hr as [He Hr]. eauto.
Qed.


(** The rows the statement returns carry exactly the selected ids. *)
Lemma returning_ids table n :
  NoDup (products_ai.id <$> table) →
  rec_id <$> (update_returning table n).2 ≡ₚ select_pending table n.
Proof.
  intros Hnd. unfold update_returning. cbn [snd]. rewrite rec_id_returning.
  apply NoDup_Permutation.
  - eapply sublist_NoDup; [exact Hnd|]. apply fmap_sublist, sublist_filter.
  - by apply select_pending_NoDup.
  - intros i. rewrite list_elem_of_fmap. split.
    + intros (r & -> & Hr). by apply list_elem_of_filter in Hr as [? _].
    + intros Hi. destruct (select_pending_eligible _ _ _ Hi) as (r & Hr & _ & <-).
      exists r. split; [done|]. by apply list_elem_of_filter.
Qed.

Context (env : environment).

Lemma fetch_pending_records_fault conn limit :
  is_Some (db_fault env (db_ops conn)) ∨ limit < 0 ∨ bigint_max < limit →
  fetch_pending_records env conn limit
    = ([], World (db conn) (api_calls conn) (S (db_ops conn))
                 (trace conn ++ [EvClaim limit])).
Proof.
  intros Hf. unfold fetch_pending_records. cbn [db_ops emit db api_calls trace].
  destruct (db_fault env (db_ops conn)); [done|].
  destruct Hf as [[? ?]|Hneg]; [done|].
  assert ((limit <? 0) || (bigint_max <? limit) = true) as ->; [|done].
  apply orb_true_iff. lia.
Qed.

Lemma fetch_pending_records_ok conn limit :
  db_fault env (db_ops conn) = None → 0 ≤ limit ≤ bigint_max →
  fetch_pending_records env conn limit
    = ((update_returning (db conn) (Z.to_nat limit)).2,
       World (update_returning (db conn) (Z.to_nat limit)).1
             (api_calls conn) (S (db_ops conn))
             (trace conn ++ [EvClaim limit])).
Proof.
  intros Hf Hl. unfold fetch_pending_records. cbn [db_ops emit db api_calls trace].
  rewrite Hf.
  assert ((limit <? 0) || (bigint_max <? limit) = false) as ->; [|done].
  apply orb_false_iff. lia.
Qed.


End Store.


(** * Batch coordinator: the loop *)

Section Batch.

Context (env : environment).

Lemma update_prompt_ids table rid p now :
  products_ai.id <$> update_prompt table rid p now = products_ai.id <$> table.
Proof.
  unfold update_prompt. rewrite <- list_fmap_compose.
  apply list_fmap_ext. intros i r _. simpl. by case_decide.
Qed.

Lemma update_prompt_other table rid p now r :
  r ∈ table → products_ai.id r ≠ rid → r ∈ update_prompt table rid p now.
Proof.
  intros Hr Hne. unfold update_prompt. apply list_elem_of_fmap.
  exists r. split; [|done]. by rewrite decide_False.
Qed.

(** [update_record] is one transaction; it rewrites at most the rows with
    the given id. *)
Lemma update_record_spec w rid p :
  ∃ table,
    update_record env w rid p
      = World table (api_calls w) (S (db_ops w)) (trace w ++ [EvUpdate rid p])
    ∧ products_ai.id <$> table = products_ai.id <$> db w
    ∧ (∀ r, r ∈ db w → products_ai.id r ≠ rid → r ∈ table).
Proof.
  unfold update_record. cbn [emit db_ops db api_calls trace].
  destruct (db_fault env (db_ops w)).
  - by exists (db w).
  - eexists. split; [done|].
    split; [apply update_prompt_ids | intros; by apply update_prompt_other].
Qed.

Lemma session_record_event rid evs :
  Forall session_event evs → Forall (record_event rid) evs.
Proof. intros H. eapply Forall_impl; [exact H|]. by intros []. Qed.

Lemma record_event_subject rid ev i :
  record_event rid ev → subject ev = Some i → i = rid.
Proof. destruct ev; simpl; intros; simplify_eq; done. Qed.

Lemma started_record_events rid evs :
  Forall (record_event rid) evs → started evs = [].
Proof.
  induction 1 as [|ev evs Hev _ IH]; [done|].
  unfold started in *. cbn [omap list_omap]. rewrite IH. by destruct ev.
Qed.

Lemma started_app evs1 evs2 : started (evs1 ++ evs2) = started evs1 ++ started evs2.
Proof. apply omap_app. Qed.

Lemma pace_spec rid idx total w :
  ∃ evs,
    pace idx total w = World (db w) (api_calls w) (db_ops w) (trace w ++ evs)
    ∧ Forall (record_event rid) evs.
Proof.
  unfold pace. destruct (idx <? total)%nat.
  - exists [EvSleep 15]. split; [done|]. by repeat constructor.
  - exists []. rewrite app_nil_r. split; [by destruct w|constructor].
Qed.

(** One pass through the loop body: it starts on the record, emits events
    of that record only, touches no row with another id, and raises only
    for a record without title. *)
Lemma process_record_spec idx total (r : record) w :
  ∃ res w' evs,
    process_record env idx total r w = (res, w')
    ∧ trace w' = trace w ++ EvRecord (rec_id r) :: evs
    ∧ Forall (record_event (rec_id r)) evs
    ∧ products_ai.id <$> db w' = products_ai.id <$> db w
    ∧ (∀ row, row ∈ db w → products_ai.id row ≠ rec_id r → row ∈ db w')
    ∧ (rec_title r ≠ None → res = None).
Proof.
  destruct (rec_title r) as [t|] eqn:Ht.
  2:{ rewrite missing_title_raises by done. eexists _, _, [].
      split; [done|]. split; [done|]. split; [constructor|]. by repeat split. }
  destruct (render_never_fails env r) as (p & Hp & _).
  rewrite (process_record_unfold env _ _ _ _ _ _ Ht Hp).
  destruct (retry_loop_frame env p (seq 0 max_prompt_retries) (Locals false "")
              (emit (EvRecord (rec_id r)) w))
    as (res & calls & evs & -> & Hevs%(session_record_event (rec_id r)) & _).
  cbn [emit db api_calls db_ops trace].
  set (w1 := World _ _ _ _).
  destruct res as [e|l].
  - destruct (pace_spec (rec_id r) idx total w1) as (evs2 & -> & Hevs2).
    eexists _, _, (evs ++ evs2). split; [done|]. cbn.
    rewrite <- !(assoc_L (++)). split; [done|].
    split; [by apply Forall_app|]. by repeat split.
  - destruct (valid_response_received l).
    + destruct (update_record_spec w1 (rec_id r) (cleaned_response l))
        as (table & -> & Hids & Hother).
      set (w2 := World _ _ _ _).
      destruct (pace_spec (rec_id r) idx total w2) as (evs2 & -> & Hevs2).
      eexists _, _, (evs ++ [EvUpdate (rec_id r) (cleaned_response l)] ++ evs2).
      split; [done|]. cbn. rewrite <- !(assoc_L (++)). split; [done|].
      split; [|by repeat split].
      apply Forall_app. split; [done|]. by constructor.
    + eexists _, _, evs. split; [done|]. cbn. rewrite <- !(assoc_L (++)).
      by repeat split.
Qed.

(** The loop over a batch: events are about the records of the batch only,
    no other row is touched, and when every record has a title the loop
    starts on every record, in order, and raises nothing. *)
Lemma records_loop_spec idx total (records : list record) w :
  ∃ res w' evs,
    records_loop env idx total records w = (res, w')
    ∧ trace w' = trace w ++ evs
    ∧ Forall (λ ev, ∀ i, subject ev = Some i → i ∈ rec_id <$> records) evs
    ∧ products_ai.id <$> db w' = products_ai.id <$> db w
    ∧ (∀ row, row ∈ db w → products_ai.id row ∉ rec_id <$> records → row ∈ db w')
    ∧ ((∀ rec, rec ∈ records → rec_title rec ≠ None) →
       res = None ∧ started evs = rec_id <$> records).
Proof.
  revert idx w. induction records as [|r rest IH]; intros idx w.
  { exists None, w, []. rewrite app_nil_r. split; [done|]. split; [done|].
    split; [constructor|]. by repeat split. }
  cbn [records_loop].
  destruct (process_record_spec idx total r w)
    as (res & w1 & evs1 & -> & Htr1 & Hevs1 & Hids1 & Hrows1 & Hres1).
  assert (Forall (λ ev, ∀ i, subject ev = Some i → i ∈ rec_id <$> r :: rest)
                 (EvRecord (rec_id r) :: evs1)) as Hsub1.
  { constructor.
    - intros i [= <-]. apply list_elem_of_here.
    - eapply Forall_impl; [exact Hevs1|]. intros ev Hev i Hi.
      rewrite (record_event_subject _ _ _ Hev Hi). apply list_elem_of_here. }
  destruct res as [e|].
  - eexists _, _, _. split; [done|]. split; [exact Htr1|]. split; [done|].
    split; [done|]. split.
    + intros row Hrow Hout. apply Hrows1; [done|].
      intros Heq. apply Hout. rewrite Heq. apply list_elem_of_here.
    + intros Htitles. exfalso.
      assert (Some e = None) by (apply Hres1, Htitles, list_elem_of_here).
      done.
  - destruct (IH (S idx) w1)
      as (res & w2 & evs2 & -> & Htr2 & Hevs2 & Hids2 & Hrows2 & Hres2).
    exists res, w2, ((EvRecord (rec_id r) :: evs1) ++ evs2).
    split; [done|]. split; [by rewrite Htr2, Htr1, <- (assoc_L (++))|].
    split.
    { apply Forall_app. split; [done|].
      eapply Forall_impl; [exact Hevs2|]. intros ev Hev i Hi.
      rewrite fmap_cons. apply list_elem_of_further. by apply Hev. }
    split; [by rewrite Hids2|]. split.
    + intros row Hrow Hout. rewrite fmap_cons in Hout.
      apply not_elem_of_cons in Hout as [Hne Hout].
      apply Hrows2; [|done]. by apply Hrows1.
    + intros Htitles. destruct Hres2 as [-> Hst].
      { intros rec Hrec. by apply Htitles, list_elem_of_further. }
      split; [done|].
      rewrite started_app, Hst. unfold started at 1. cbn [omap list_omap].
      fold (started evs1). by rewrite (started_record_events _ _ Hevs1).
Qed.

Lemma py_take_subseteq k (records : list record) : py_take k records ⊆ records.
Proof. unfold py_take. destruct (k <? 0); apply subseteq_take. Qed.

(** C6, as the code has it.  For every positive [limit_records] smaller
    than the number of claimed records, the coordinator starts on exactly
    that many records: the first ones of the claimed batch, in claimed
    order (every one of them having a title). *)
Theorem record_cap_truncates conn k claimed conn1 :
  fetch_pending_records env conn 30 = (claimed, conn1) →
  0 < k →
  k < Z.of_nat (length claimed) →
  (∀ rec, rec ∈ take (Z.to_nat k) claimed → rec_title rec ≠ None) →
  ∃ conn2 evs,
    process_records_with_api env conn (Some k) = (None, conn2)
    ∧ trace conn2 = trace conn1 ++ evs
    ∧ started evs = rec_id <$> take (Z.to_nat k) claimed
    ∧ Z.of_nat (length (started evs)) = k.
Proof.
  intros Hfetch Hk Hlt Htitles. unfold process_records_with_api.
  rewrite Hfetch. destruct claimed as [|c claimed']; [simpl in Hlt; lia|].
  set (claimed := c :: claimed') in *.
  assert ((k =? 0) = false) as -> by lia.
  unfold py_take. assert ((k <? 0) = false) as -> by lia.
  destruct (records_loop_spec 1 (length (take (Z.to_nat k) claimed))
              (take (Z.to_nat k) claimed) conn1)
    as (res & conn2 & evs & -> & Htr & _ & _ & _ & Hres).
  destruct (Hres Htitles) as [-> Hst].
  exists conn2, evs. split; [done|]. split; [done|]. split; [done|].
  rewrite Hst, length_fmap, length_take. lia.
Qed.

(** A run of the job on a table with unique ids: a row that already holds
    a result is not claimed, stays as it is, and no event of the run is
    about it. *)
Lemma process_records_with_api_spec conn limit_records :
  NoDup (products_ai.id <$> db conn) →
  ∃ res conn' evs,
    process_records_with_api env conn limit_records = (res, conn')
    ∧ trace conn' = trace conn ++ evs
    ∧ products_ai.id <$> db conn' = products_ai.id <$> db conn
    ∧ ∀ r, r ∈ db conn → prompt_veo3 r ≠ None →
        r ∈ db conn'
        ∧ (products_ai.id r ∉ rec_id <$> (fetch_pending_records env conn 30).1)
        ∧ Forall (λ ev, subject ev ≠ Some (products_ai.id r)) evs.
Proof.
  intros Hnd. unfold process_records_with_api.
  destruct (db_fault env (db_ops conn)) as [e|] eqn:Hfault.
  { rewrite fetch_pending_records_fault by (left; by rewrite Hfault).
    eexists _, _, _. split; [done|]. split; [done|]. split; [done|].
    intros r Hr _. split; [done|]. split; [apply not_elem_of_nil|].
    by repeat constructor. }
  rewrite fetch_pending_records_ok by done.
  pose proof (returning_ids (db conn) 30 Hnd) as Hperm.
  change (Z.to_nat 30) with 30%nat.
  set (claimed := (update_returning (db conn) 30).2) in *.
  set (conn1 := World _ _ _ _).
  assert (products_ai.id <$> db conn1 = products_ai.id <$> db conn) as Hids1.
  { unfold conn1, update_returning. cbn. rewrite <- list_fmap_compose.
    apply list_fmap_ext. intros i r _. simpl. by case_decide. }
  assert (∀ r, r ∈ db conn → prompt_veo3 r ≠ None →
            (products_ai.id r ∉ rec_id <$> claimed) ∧ r ∈ db conn1) as Hdone.
  { intros r Hr Hres.
    assert (products_ai.id r ∉ select_pending (db conn) 30) as Hout.
    { intros (r' & Hr' & (Hp & _) & Heq)%select_pending_eligible.
      apply Hres. by rewrite <- (fmap_inj_on products_ai.id (db conn) r' r). }
    split; [by rewrite Hperm|].
    unfold conn1, update_returning. cbn. apply list_elem_of_fmap.
    exists r. split; [|done]. by rewrite decide_False. }
  set (records := match limit_records with
                  | Some k => if k =? 0 then claimed else py_take k claimed
                  | None => claimed
                  end).
  assert (records ⊆ claimed) as Hsub.
  { unfold records. destruct limit_records as [k|]; [|done].
    destruct (k =? 0); [done|apply py_take_subseteq]. }
  assert (∃ res conn' evs,
    records_loop env 1 (length records) records conn1 = (res, conn')
    ∧ trace conn' = trace conn ++ evs
    ∧ products_ai.id <$> db conn' = products_ai.id <$> db conn
    ∧ ∀ r, r ∈ db conn → prompt_veo3 r ≠ None →
        r ∈ db conn' ∧ (products_ai.id r ∉ rec_id <$> claimed)
        ∧ Forall (λ ev, subject ev ≠ Some (products_ai.id r)) evs) as Hloop.
  { destruct (records_loop_spec 1 (length records) records conn1)
      as (res & conn2 & evs & -> & Htr & Hevs & Hids & Hrows & _).
    exists res, conn2, (EvClaim 30 :: evs). split; [done|].
    split; [rewrite Htr; unfold conn1; cbn [trace]; by rewrite <- (assoc_L (++))|].
    split; [by rewrite Hids|].
    intros r Hr Hres. destruct (Hdone r Hr Hres) as [Hout Hr1].
    assert (products_ai.id r ∉ rec_id <$> records) as Hout'.
    { intros (rec & Heq & Hrec)%list_elem_of_fmap. apply Hout.
      rewrite Heq. by apply list_elem_of_fmap_2, Hsub. }
    split; [by apply Hrows|]. split; [done|].
    constructor; [done|].
    eapply Forall_impl; [exact Hevs|]. intros ev Hev Heq. by apply Hout', Hev. }
  destruct claimed as [|c claimed'] eqn:Hclaimed; [|exact Hloop].
  eexists _, _, _. split; [done|]. split; [done|]. split; [done|].
  intros r Hr Hres. destruct (Hdone r Hr Hres) as [Hout Hr1].
  split; [done|]. split; [done|]. by repeat constructor.
Qed.

(** C7. Running the job twice in sequence on a table with unique ids:
    a row that holds a result after the first run is not claimed by the
    second run, no record of the second run is about it, and the second
    run leaves the row exactly as it was. *)
Theorem rerun_leaves_completed_items conn limit1 limit2 :
  NoDup (products_ai.id <$> db conn) →
  let '(_, conn1) := process_records_with_api env conn limit1 in
  let '(_, conn2) := process_records_with_api env conn1 limit2 in
  ∀ r, r ∈ db conn1 → prompt_veo3 r ≠ None →
    (products_ai.id r ∉ rec_id <$> (fetch_pending_records env conn1 30).1)
    ∧ (∃ evs, trace conn2 = trace conn1 ++ evs
              ∧ Forall (λ ev, subject ev ≠ Some (products_ai.id r)) evs)
    ∧ r ∈ db conn2
    ∧ (∀ r', r' ∈ db conn2 → products_ai.id r' = products_ai.id r → r' = r).
Proof.
  intros Hnd.
  destruct (process_records_with_api_spec conn limit1 Hnd)
    as (res1 & conn1 & evs1 & -> & _ & Hids1 & _).
  assert (NoDup (products_ai.id <$> db conn1)) as Hnd1 by by rewrite Hids1.
  destruct (process_records_with_api_spec conn1 limit2 Hnd1)
    as (res2 & conn2 & evs2 & -> & Htr2 & Hids2 & Hkeep).
  intros r Hr Hres. destruct (Hkeep r Hr Hres) as (Hr2 & Hout & Hevs).
  split; [done|]. split; [by exists evs2|]. split; [done|].
  intros r' Hr' Heq. apply (fmap_inj_on products_ai.id (db conn2)); try done.
  by rewrite Hids2.
Qed.

End Batch.


(** * Response cleaner and validation block *)

Section Validation.

Lemma strip_idem s : PyStr.strip (PyStr.strip s) = PyStr.strip s.
Proof.
  unfold PyStr.strip at 2.
  by rewrite PyStrFacts.strip_lstrip, PyStrFacts.strip_rstrip.
Qed.

(** The cleaner removes the fences, then keeps the text from the first
    [{] to the last [}] when they are in this order, and strips the
    result. *)
Lemma clean_json_response_unfenced text :
  clean_json_response text =
    let t := unfenced text in
    PyStr.strip
      (if braces_in_order t
       then PyStr.slice (PyStr.find "{"%char t) (PyStr.rfind "}"%char t + 1) t
       else t).
Proof. reflexivity. Qed.

Lemma prefix_cons a b s1 s2 :
  String.prefix (String a s1) (String b s2)
  = bool_decide (a = b) && String.prefix s1 s2.
Proof.
  cbn [String.prefix]. destruct (ascii_dec a b).
  - by rewrite bool_decide_eq_true_2.
  - by rewrite bool_decide_eq_false_2.
Qed.

Lemma prefix_empty s : String.prefix EmptyString s = true.
Proof. by destruct s. Qed.

Lemma fence_prefix s :
  PyStr.startswith "```" s = false → PyStr.startswith "```json" s = false.
Proof.
  unfold PyStr.startswith.
  destruct s as [|a [|b [|c s]]]; try done; rewrite !prefix_cons;
    try (intros _; by rewrite ?andb_false_r).
  rewrite prefix_empty.
  by do 3 (destruct (bool_decide _); [|done]).
Qed.

(** Without fences and without braces in order, the cleaner returns the
    trimmed input. *)
Lemma clean_json_response_plain text :
  PyStr.startswith "```" (PyStr.strip text) = false →
  PyStr.endswith "```" (PyStr.strip text) = false →
  braces_in_order (PyStr.strip text) = false →
  clean_json_response text = PyStr.strip text.
Proof.
  intros Hs He Hb. rewrite clean_json_response_unfenced. unfold unfenced.
  rewrite (fence_prefix _ Hs), Hs, He. cbv zeta. by rewrite Hb, strip_idem.
Qed.

Context (env : environment).

(** The first check is on the raw text: an echoed template is rejected
    whatever the cleaned text is. *)
Lemma validate_echoed cleaned raw :
  PyStr.contains "You are an Elite AI" raw = true →
  validate_response env cleaned raw = EchoedInstructions.
Proof. intros H. unfold validate_response. by rewrite H. Qed.

(** The second check: the cleaned text does not decode. *)
Lemma validate_malformed cleaned raw e :
  PyStr.contains "You are an Elite AI" raw = false →
  json_loads env cleaned = DecodeError e →
  validate_response env cleaned raw = MalformedJson.
Proof. intros H1 H2. unfold validate_response. by rewrite H1, H2. Qed.

(** The third check, on a decoded object: a required field is absent. *)
Lemma validate_missing cleaned raw members :
  PyStr.contains "You are an Elite AI" raw = false →
  json_loads env cleaned = Parsed (JObject members) →
  "part1_prompt" ∉ members.*1 ∨ "part2_prompt" ∉ members.*1 →
  validate_response env cleaned raw = MissingFields.
Proof.
  intros H1 H2 Hm. unfold validate_response, required_fields_present.
  rewrite H1, H2. cbn [py_in py_keys].
  destruct (decide ("part1_prompt" ∈ members.*1)) as [Hin|Hout].
  - rewrite (bool_decide_eq_true_2 _ Hin).
    destruct Hm as [Hm|Hm]; [done|]. by rewrite (bool_decide_eq_false_2 _ Hm).
  - by rewrite (bool_decide_eq_false_2 _ Hout).
Qed.

Lemma dict_get_elem key members :
  is_Some (dict_get key members) → key ∈ members.*1.
Proof.
  induction members as [|[k x] ms IH]; [by intros [? ?]|]. cbn [dict_get].
  destruct (dict_get key ms).
  - intros _. rewrite fmap_cons. apply list_elem_of_further, IH. eauto.
  - destruct (String.eqb k key) eqn:Hk; [|by intros [? ?]]. intros _.
    apply String.eqb_eq in Hk as ->. apply list_elem_of_here.
Qed.

(** A decoded object holding both fields as texts passes. *)
Lemma validate_passed cleaned raw members s1 s2 :
  PyStr.contains "You are an Elite AI" raw = false →
  json_loads env cleaned = Parsed (JObject members) →
  dict_get "part1_prompt" members = Some (JString s1) →
  dict_get "part2_prompt" members = Some (JString s2) →
  validate_response env cleaned raw = ValidationPassed.
Proof.
  intros H1 H2 Hp1 Hp2.
  unfold validate_response, required_fields_present, show_part.
  rewrite H1, H2. cbn [py_in py_getitem].
  rewrite !bool_decide_eq_true_2 by (apply dict_get_elem; eauto).
  by rewrite Hp1, Hp2.
Qed.

(** A response that passes on the first attempt is persisted as its
    cleaned text. *)
Lemma first_pass_is_persisted idx total (r : record) w t p a :
  rec_title r = Some t →
  generate_prompt_text env r = Some p →
  generate_content env (api_calls w) p = Response a →
  validate_response env (clean_json_response a) a = ValidationPassed →
  process_record env idx total r w
    = (None,
       pace idx total
         (update_record env
            (World (db w) (S (api_calls w)) (db_ops w)
                   (trace w ++ [EvRecord (rec_id r); EvGenerate p]))
            (rec_id r) (clean_json_response a))).
Proof.
  intros Ht Hp Hgen Hv. rewrite (process_record_unfold env _ _ _ _ _ _ Ht Hp).
  cbn [seq max_prompt_retries retry_loop]. unfold attempt.
  cbn [Nat.ltb Nat.leb emit api_calls db db_ops trace].
  rewrite Hgen, Hv. cbn. unfold emit. cbn. by rewrite <- (assoc_L (++)).
Qed.

End Validation.


(** * The object the cleaner extracts *)

Section Extraction.

Lemma rstrip_nonspace_end s c :
  PyStr.isspace c = false →
  PyStr.rstrip (s +:+ String c EmptyString) = s +:+ String c EmptyString.
Proof.
  intros Hc. induction s as [|a s IH].
  - change (PyStr.rstrip (String c EmptyString) = String c EmptyString).
    simpl. by rewrite Hc.
  - change (String a s +:+ String c EmptyString)
      with (String a (s +:+ String c EmptyString)).
    rewrite PyStrFacts.rstrip_cons, IH. rewrite decide_False; [done|].
    by destruct s.
Qed.

Lemma index_of_split c s i :
  PyStr.index_of c s = Some i →
  ∃ pre post, s = pre +:+ String c post ∧ String.length pre = i
              ∧ PyStr.index_of c pre = None.
Proof.
  revert i. induction s as [|a s IH]; intros i; [done|]. simpl.
  destruct (Ascii.eqb a c) eqn:Hac.
  - apply Ascii.eqb_eq in Hac as ->. intros [= <-]. by exists EmptyString, s.
  - destruct (PyStr.index_of c s) as [j|]; [|done]. intros [= <-].
    destruct (IH j eq_refl) as (pre & post & -> & <- & Hpre).
    exists (String a pre), post. split_and!; [done|done|].
    simpl. by rewrite Hac, Hpre.
Qed.

Lemma rindex_of_split c s j :
  PyStr.rindex_of c s = Some j →
  ∃ pre post, s = pre +:+ String c post ∧ String.length pre = j
              ∧ PyStr.rindex_of c post = None.
Proof.
  revert j. induction s as [|a s IH]; intros j; [done|]. simpl.
  destruct (PyStr.rindex_of c s) as [k|] eqn:Hs.
  - intros [= <-]. destruct (IH k eq_refl) as (pre & post & -> & <- & Hpost).
    by exists (String a pre), post.
  - destruct (Ascii.eqb a c) eqn:Hac; [|done].
    apply Ascii.eqb_eq in Hac as ->. intros [= <-]. by exists EmptyString, s.
Qed.

Lemma substring_skip pre s n :
  String.substring (String.length pre) n (pre +:+ s) = String.substring 0 n s.
Proof. induction pre as [|a pre IH]; [done|]. exact IH. Qed.

Lemma substring_prefix s1 s2 :
  String.substring 0 (String.length s1) (s1 +:+ s2) = s1.
Proof.
  induction s1 as [|a s1 IH].
  - by destruct s2.
  - change (String a (String.substring 0 (String.length s1) (s1 +:+ s2))
            = String a s1).
    by rewrite IH.
Qed.

Lemma append_assoc (s1 s2 s3 : string) : (s1 +:+ s2) +:+ s3 = s1 +:+ (s2 +:+ s3).
Proof. induction s1 as [|a s1 IH]; [done|]. exact (f_equal (String a) IH). Qed.

Lemma append_length s1 s2 :
  String.length (s1 +:+ s2) = (String.length s1 + String.length s2)%nat.
Proof. induction s1 as [|a s1 IH]; [done|]. exact (f_equal S IH). Qed.

(** Two ways of cutting the same text, the first cut strictly to the
    left of the second. *)
Lemma two_cuts pre1 c1 post1 pre2 c2 post2 :
  pre1 +:+ String c1 post1 = pre2 +:+ String c2 post2 →
  (String.length pre1 < String.length pre2)%nat →
  ∃ mid, pre2 = pre1 +:+ String c1 mid ∧ post1 = mid +:+ String c2 post2.
Proof.
  revert pre2. induction pre1 as [|a pre1 IH]; intros [|b pre2] Heq Hlt;
    cbn [String.length] in Hlt; try lia.
  - injection Heq as -> ->. by exists pre2.
  - injection Heq as -> Heq. destruct (IH pre2 Heq) as (mid & -> & ->); [lia|].
    by exists mid.
Qed.

(** When the first [{] of the unfenced text comes before its last [}],
    the cleaner returns the text from that [{] to that [}], both included,
    and nothing else. *)
Lemma clean_json_response_object text :
  braces_in_order (unfenced text) = true →
  ∃ pre mid post,
    unfenced text = pre +:+ String "{" (mid +:+ String "}" post)
    ∧ PyStr.index_of "{" pre = None
    ∧ PyStr.rindex_of "}" post = None
    ∧ clean_json_response text = String "{" (mid +:+ String "}" EmptyString).
Proof.
  rewrite clean_json_response_unfenced. cbv zeta.
  set (t := unfenced text). intros Hb. rewrite Hb.
  unfold braces_in_order, PyStr.find, PyStr.rfind in Hb.
  unfold PyStr.slice, PyStr.find, PyStr.rfind.
  destruct (PyStr.index_of "{" t) as [i|] eqn:Hi; [|done].
  destruct (PyStr.rindex_of "}" t) as [j|] eqn:Hj;
    [|by rewrite andb_false_r in Hb].
  apply andb_true_iff in Hb as [_ Hij]. apply Z.gtb_lt in Hij.
  destruct (index_of_split _ _ _ Hi) as (pre & post1 & Ht1 & Hlen1 & Hpre).
  destruct (rindex_of_split _ _ _ Hj) as (pre2 & post & Ht2 & Hlen2 & Hpost).
  destruct (two_cuts pre "{" post1 pre2 "}" post) as (mid & -> & ->);
    [congruence|lia|].
  exists pre, mid, post. split; [done|]. split; [done|]. split; [done|].
  rewrite Ht1, Nat2Z.id, <- Hlen1, substring_skip.
  assert (Z.to_nat (Z.of_nat j + 1 - Z.of_nat (String.length pre))
          = String.length (String "{" (mid +:+ String "}" EmptyString))) as ->.
  { rewrite <- Hlen2. cbn [String.length]. rewrite !append_length.
    cbn [String.length]. lia. }
  change (String "{" (mid +:+ String "}" post))
    with (String "{" (mid +:+ String "}" EmptyString +:+ post)).
  replace (String "{" (mid +:+ String "}" EmptyString +:+ post))
    with (String "{" (mid +:+ String "}" EmptyString) +:+ post)
    by exact (f_equal (String "{") (append_assoc mid (String "}" EmptyString) post)).
  rewrite substring_prefix.
  unfold PyStr.strip.
  change (String "{" (mid +:+ String "}" EmptyString))
    with ((String "{" mid) +:+ String "}" EmptyString).
  by rewrite rstrip_nonspace_end.
Qed.

End Extraction.


(** * The program on explicit inputs *)

Example clean_fenced :
  clean_json_response good_answer = good_payload.
Proof. reflexivity. Qed.

Example clean_plain : clean_json_response "  not json at all " = "not json at all".
Proof. reflexivity. Qed.

Example clean_fence_only : clean_json_response "```hello```" = "hello".
Proof. reflexivity. Qed.

Example clean_braces_reversed : clean_json_response " } x { " = "} x {".
Proof. reflexivity. Qed.

Example validate_good :
  validate_response (scripted []) (clean_json_response good_answer) good_answer
  = ValidationPassed.
Proof. reflexivity. Qed.

Example validate_echo :
  validate_response (scripted [])
    (clean_json_response (prompt_for "A" +:+ good_payload))
    (prompt_for "A" +:+ good_payload)
  = EchoedInstructions.
Proof. reflexivity. Qed.

Example validate_one_field :
  validate_response (scripted [])
    (clean_json_response (PyStr.q "{'part1_prompt':'a'}")) (PyStr.q "{'part1_prompt':'a'}")
  = MissingFields.
Proof. reflexivity. Qed.

Example validate_not_json :
  validate_response (scripted []) (clean_json_response "not json at all")
                    "not json at all"
  = MalformedJson.
Proof. reflexivity. Qed.

(** C3. The response [5] is valid JSON but not an object: the field check
    raises a TypeError that is not a JSONDecodeError, so the response is
    neither rejected with one of the three reasons nor accepted; the
    exception goes to the handler of backend errors, and on the fourth
    attempt it leaves the retry loop and the record ends as a failed one,
    with the pacing sleep, instead of as an exhausted one. *)
Lemma non_object_response_escapes_validation :
  clean_json_response "5" = "5"
  ∧ MiniJson.loads "5" = Parsed (JNumber "5")
  ∧ validate_response (scripted []) (clean_json_response "5") "5"
    = ValidationRaised false
        (Exc "TypeError" "argument of type 'int' is not iterable")
  ∧ process_record (scripted (replicate 4 (Response "5"))) 1 2
      (Record_ 1 (Some "A") (Some "img")) (fresh [])
    = (None,
       World [] 4 0
         [EvRecord 1;
          EvGenerate (prompt_for "A"); EvSleep 3; EvGenerate (prompt_for "A");
          EvSleep 3; EvGenerate (prompt_for "A"); EvSleep 3;
          EvGenerate (prompt_for "A"); EvSleep 15]).
Proof. by vm_compute. Qed.

(** C5. Two claimed records; the four responses for the first one are
    rejected, the fifth response is valid.  The loop goes from the exhausted
    first record to the second one without the 15-second sleep. *)
Lemma no_pacing_after_exhausted_record :
  process_records_with_api
    (scripted (replicate 4 (Response "x") ++ [Response good_answer]))
    (fresh two_pending) None
  = (None,
     World
       [Row 1 (Some "A") (Some "img") (Some true) (Some true) None None;
        Row 2 (Some "B") (Some "img") (Some true) (Some true)
            (Some good_payload) (Some 1001)]
       5 2
       [EvClaim 30;
        EvRecord 1;
        EvGenerate (prompt_for "A"); EvSleep 3; EvGenerate (prompt_for "A");
        EvSleep 3; EvGenerate (prompt_for "A"); EvSleep 3;
        EvGenerate (prompt_for "A");
        EvRecord 2;
        EvGenerate (prompt_for "B"); EvUpdate 2 good_payload]).
Proof. by vm_compute. Qed.

(** C8. The first response holds both fields with null values: validation
    passes and sets the flag, then the narration of the fields raises.  The
    three later responses are rejected as malformed; the flag is still set
    when the loop ends, and the text handed to [update_record] is the
    cleaned text of the last, rejected response. *)
Lemma stale_flag_persists_rejected_text :
  let env := scripted (Response null_fields :: replicate 3 (Response "x")) in
  validate_response env (clean_json_response null_fields) null_fields
    = ValidationRaised true (Exc "TypeError" "object is not subscriptable")
  ∧ validate_response env (clean_json_response "x") "x" = MalformedJson
  ∧ persisted (trace (process_records_with_api env (fresh [pending 1 (Some "A")]) None).2)
    = [(1, "x")]
  ∧ prompt_veo3 <$> db (process_records_with_api env (fresh [pending 1 (Some "A")]) None).2
    = [Some "x"].
Proof. by vm_compute. Qed.

(** C9. A claimed record without title: the title display raises before the
    prompt is rendered, outside of any handler; the exception leaves
    [process_records_with_api] and the second claimed record is never
    started. *)
Lemma missing_title_aborts_batch :
  process_records_with_api (scripted [Response good_answer])
    (fresh [pending 1 None; pending 2 (Some "B")]) None
  = (Some (Exc "TypeError" "object of type 'NoneType' has no len()"),
     World
       [Row 1 None (Some "img") (Some true) (Some true) None None;
        Row 2 (Some "B") (Some "img") (Some true) (Some true) None None]
       0 1 [EvClaim 30; EvRecord 1]).
Proof. by vm_compute. Qed.

(** C1 fails on the code: the backend raises the session-invalid error on
    every call.  The fourth attempt of the first record raises it; the
    second record is processed all the same, with four more calls, and
    nothing is raised to the caller. *)
Lemma fatal_escalation_counterexample :
  generate_content always_406 3 (prompt_for "A") = ApiRaised e406
  ∧ session_invalid (exc_str e406) = true
  ∧ process_records_with_api always_406 (fresh two_pending) None
    = (None,
       World two_claimed 8 1
         [EvClaim 30;
          EvRecord 1;
          EvGenerate (prompt_for "A"); EvCookieWarning; EvSleep 3;
          EvGenerate (prompt_for "A"); EvCookieWarning; EvSleep 3;
          EvGenerate (prompt_for "A"); EvCookieWarning; EvSleep 3;
          EvGenerate (prompt_for "A"); EvCookieWarning;
          EvSleep 15;
          EvRecord 2;
          EvGenerate (prompt_for "B"); EvCookieWarning; EvSleep 3;
          EvGenerate (prompt_for "B"); EvCookieWarning; EvSleep 3;
          EvGenerate (prompt_for "B"); EvCookieWarning; EvSleep 3;
          EvGenerate (prompt_for "B"); EvCookieWarning]).
Proof. by vm_compute. Qed.


(** A limit beyond the server's bigint is refused: nothing is claimed,
    although rows are eligible. *)
Example claim_beyond_bigint :
  fetch_pending_records (scripted []) (fresh mixed_table) 9223372036854775808
  = ([], World mixed_table 0 1 [EvClaim 9223372036854775808]).
Proof. by vm_compute. Qed.

(** C6 fails on the code at [limit_records = 0]: zero is smaller than the
    size of the claimed batch, and both claimed records are processed. *)
Lemma record_cap_zero_counterexample :
  let env := scripted (replicate 2 (Response good_answer)) in
  length (fetch_pending_records env (fresh two_pending) 30).1 = 2%nat
  ∧ started (trace (process_records_with_api env (fresh two_pending) (Some 0)).2)
    = [1; 2].
Proof. by vm_compute. Qed.


(** * The theorems at explicit inputs *)


Lemma final_attempt_error_is_contained_witness :
  session_invalid "no answer" = false
  ∧ (process_record (scripted []) 1 2 record_A (fresh [])).1 = None
  ∧ db (process_record (scripted []) 1 2 record_A (fresh [])).2 = []
  ∧ api_calls (process_record (scripted []) 1 2 record_A (fresh [])).2 = 4%nat.
Proof.
  split; [reflexivity|].
  destruct (final_attempt_error_is_contained (scripted []) 1 2 record_A []
              (fresh []) "A" (prompt_for "A") (Exc "TimeoutError" "no answer"))
    as (evs & _ & Hrec & _).
  - reflexivity.
  - reflexivity.
  - intros j Hj. destruct j as [|[|[|j]]]; [..|lia]; vm_compute; exact I.
  - reflexivity.
  - rewrite Hrec. split; [reflexivity|]. split; reflexivity.
Defined.


Lemma record_cap_truncates_witness :
  ∃ conn2 evs,
    process_records_with_api always_good (fresh three_pending) (Some 2) = (None, conn2)
    ∧ trace conn2 = [EvClaim 30] ++ evs
    ∧ started evs = [1; 2].
Proof.
  destruct (record_cap_truncates always_good (fresh three_pending) 2
              (fetch_pending_records always_good (fresh three_pending) 30).1
              (fetch_pending_records always_good (fresh three_pending) 30).2)
    as (conn2 & evs & Hrun & Htrace & Hstarted & _).
  - reflexivity.
  - lia.
  - vm_compute. reflexivity.
  - apply Forall_forall, (bool_decide_unpack _). vm_compute. exact I.
  - exists conn2, evs. split; [exact Hrun|]. split; [exact Htrace|exact Hstarted].
Defined.

Lemma rerun_leaves_completed_items_witness :
  let conn1 := (process_records_with_api always_good (fresh two_pending) None).2 in
  let conn2 := (process_records_with_api always_good conn1 None).2 in
  prompt_veo3 <$> db conn1 = [Some good_payload; Some good_payload]
  ∧ ∀ r, r ∈ db conn1 → prompt_veo3 r ≠ None → r ∈ db conn2.
Proof.
  intros conn1 conn2. split; [reflexivity|].
  assert (NoDup (products_ai.id <$> db (fresh two_pending))) as Hnd
    by (apply (bool_decide_unpack _); vm_compute; exact I).
  pose proof (rerun_leaves_completed_items always_good (fresh two_pending)
                None None Hnd) as H.
  unfold conn2, conn1.
  destruct (process_records_with_api always_good (fresh two_pending) None)
    as [res1 c1].
  cbn [snd] in *.
  destruct (process_records_with_api always_good c1 None) as [res2 c2].
  intros r Hr Hres. exact (proj1 (proj2 (proj2 (H r Hr Hres)))).
Defined.


(** * More on the cookie loaders *)

Section CookieResults.

Lemma cookie_mapping_empty (s : string) :
  cookie_pairs s = [] → cookie_mapping s = ∅.
Proof. unfold cookie_mapping. by intros ->. Qed.

(** X1.  The environment loader returns [None] exactly when the variable is
    unset, empty or without any segment holding [=]; otherwise it returns the
    mapping of the segments. *)
Theorem load_cookies_from_env_result (environ : gmap string string) :
  load_cookies_from_env environ =
    let s := default "" (environ !! "GEMINI_COOKIES") in
    if decide (cookie_pairs s = []) then None else Some (cookie_mapping s).
Proof.
  unfold load_cookies_from_env. cbv zeta.
  set (s := default "" (environ !! "GEMINI_COOKIES")).
  destruct (decide (s = "")) as [->|Hs]; [done|].
  rewrite cookie_loop_pairs. fold (cookie_pairs s). fold (cookie_mapping s).
  destruct (decide (cookie_pairs s = [])) as [Hnil|Hpairs].
  - by rewrite decide_True by by apply cookie_mapping_empty.
  - by rewrite decide_False by by apply cookie_mapping_nonempty.
Qed.

(** X2.  For a file that is read as text the file loader does not raise: it
    returns the mapping of the segments of the text, which is the empty
    mapping, not [None], when no segment holds [=].  The strip of the
    whole text before the split changes nothing. *)
Theorem load_cookies_from_file_result (fs : gmap string string)
    (filepath content : string) :
  fs !! filepath = Some content →
  load_cookies_from_file fs filepath = inr (cookie_mapping content)
  ∧ (cookie_pairs content = [] → load_cookies_from_file fs filepath = inr ∅).
Proof.
  intros Hfs.
  assert (load_cookies_from_file fs filepath = inr (cookie_mapping content)) as Heq.
  { unfold load_cookies_from_file. rewrite Hfs. f_equal.
    rewrite (cookie_loop_strip _ (PyStr.split ";" content))
      by by apply PyStrFacts.fmap_strip_split_strip.
    by rewrite cookie_loop_pairs. }
  split; [done|]. intros Hnil. by rewrite Heq, cookie_mapping_empty.
Qed.

Lemma loaded_mapping (s : string) (cookies : gmap string string) :
  loaded s cookies → cookies = cookie_mapping s.
Proof.
  intros [(environ & Hs & Hload)|(fs & filepath & Hs & Hload)].
  - unfold load_cookies_from_env in Hload. rewrite Hs in Hload.
    change (default "" (Some s)) with s in Hload.
    destruct (decide (s = "")); [done|].
    rewrite cookie_loop_pairs in Hload.
    fold (cookie_pairs s) in Hload. fold (cookie_mapping s) in Hload.
    destruct (decide (cookie_mapping s = ∅)); [done|]. by injection Hload.
  - unfold load_cookies_from_file in Hload. rewrite Hs in Hload.
    rewrite (cookie_loop_strip _ (PyStr.split ";" s)) in Hload
      by by apply PyStrFacts.fmap_strip_split_strip.
    rewrite cookie_loop_pairs in Hload. by injection Hload.
Qed.

Lemma insert_loop_lookup (pairs : list (string * string)) (m : gmap string string) k :
  foldl (λ (m : gmap string string) kv, <[kv.1 := kv.2]> m) m pairs !! k
  = match last (filter (λ kv, kv.1 = k) pairs) with
    | Some kv => Some kv.2
    | None => m !! k
    end.
Proof.
  revert m. induction pairs as [|[k' v'] l IH]; intros m; [done|].
  cbn [foldl]. rewrite IH, filter_cons. cbn [fst snd].
  destruct (decide (k' = k)) as [->|Hne].
  - rewrite last_cons. destruct (last (filter _ l)); [done|].
    by rewrite lookup_insert_eq.
  - destruct (last (filter _ l)); [done|]. by rewrite lookup_insert_ne.
Qed.

(** X3.  A later segment replaces an earlier one: in the cookies a loader
    returns, a key has the value of the last segment with this key. *)
Theorem cookie_lookup_last (s : string) (cookies : gmap string string) (k : string) :
  loaded s cookies →
  cookies !! k = snd <$> last (filter (λ kv, kv.1 = k) (cookie_pairs s)).
Proof.
  intros ->%loaded_mapping.
  unfold cookie_mapping. rewrite insert_loop_lookup, lookup_empty.
  by destruct (last _).
Qed.

Lemma split_once_join c s k v :
  PyStr.split_once c s = Some (k, v) →
  s = k +:+ String c v ∧ PyStr.index_of c k = None.
Proof.
  revert k. induction s as [|a s IH]; intros k; [done|]. simpl.
  destruct (Ascii.eqb a c) eqn:Hac.
  - apply Ascii.eqb_eq in Hac as ->. by intros [= <- <-].
  - destruct (PyStr.split_once c s) as [[k' v']|]; [|done].
    intros [= <- <-]. destruct (IH k' eq_refl) as [-> Hk].
    split; [done|]. simpl. by rewrite Hac, Hk.
Qed.

(** X4.  Every cookie a loader returns comes from a segment of the text: the
    stripped segment reads key, [=], value, and the key holds no [=]. *)
Theorem cookie_entry_origin (s : string) (cookies : gmap string string) (k v : string) :
  loaded s cookies →
  cookies !! k = Some v →
  ∃ segment,
    segment ∈ PyStr.split ";" s
    ∧ PyStr.strip segment = k +:+ String "=" v
    ∧ PyStr.index_of "=" k = None.
Proof.
  intros ->%loaded_mapping.
  unfold cookie_mapping. rewrite insert_loop_lookup, lookup_empty.
  destruct (last (filter (λ kv, kv.1 = k) (cookie_pairs s))) as [[k' v']|] eqn:Hlast;
    [|done].
  intros [= <-].
  apply last_Some_elem_of, list_elem_of_filter in Hlast as [Hk Hin].
  cbn in Hk. subst k'.
  apply list_elem_of_omap in Hin as (segment & Hseg & Hsplit).
  exists segment. split; [done|]. by apply split_once_join.
Qed.

End CookieResults.

(** * More on the record store adapter *)

Section StoreEffects.

Lemma filter_none {A} (P : A → Prop) `{∀ x, Decision (P x)} (l : list A) :
  (∀ x, x ∈ l → ¬ P x) → filter P l = [].
Proof.
  intros Hno. apply elem_of_nil_inv. intros x [HP Hx]%list_elem_of_filter.
  by apply (Hno x).
Qed.

(** When the subquery selects nothing, the statement changes nothing and
    returns nothing. *)
Lemma update_returning_none table n :
  select_pending table n = [] → update_returning table n = (table, []).
Proof.
  intros Hsel. unfold update_returning. rewrite Hsel. f_equal.
  - rewrite <- (list_fmap_id table) at 2. apply list_fmap_ext.
    intros i r _. rewrite decide_False; [done|apply not_elem_of_nil].
  - rewrite filter_none; [done|]. intros r _. apply not_elem_of_nil.
Qed.

Lemma select_pending_none_eligible table n :
  (∀ r, r ∈ table → ¬ eligible r) → select_pending table n = [].
Proof.
  intros Hno. unfold select_pending. rewrite (filter_none _ _ Hno). by destruct n.
Qed.

Lemma update_returning_ids table n :
  products_ai.id <$> (update_returning table n).1 = products_ai.id <$> table.
Proof.
  unfold update_returning. cbn [fst]. rewrite <- list_fmap_compose.
  apply list_fmap_ext. intros i r _. simpl. by case_decide.
Qed.

Lemma update_returning_fixed table n :
  fixed_part <$> (update_returning table n).1 = fixed_part <$> table.
Proof.
  unfold update_returning. cbn [fst]. rewrite <- list_fmap_compose.
  apply list_fmap_ext. intros i r _. simpl. by case_decide.
Qed.

(** After the statement, a row carries the claim flag when its id was
    selected, and is as before otherwise. *)
Lemma update_returning_row table n r' :
  r' ∈ (update_returning table n).1 →
  (products_ai.id r' ∈ select_pending table n ∧ crawl_status r' = Some true)
  ∨ ((products_ai.id r' ∉ select_pending table n) ∧ r' ∈ table).
Proof.
  unfold update_returning. cbn [fst].
  intros (r & -> & Hr)%list_elem_of_fmap. case_decide; [by left|by right].
Qed.

Context (env : environment).

(** X5.  Two claims in a row on a table with unique ids: every row the first
    one returns carries the claim flag afterwards, and the second one
    returns none of the ids the first one returned. *)
Theorem successive_claims_disjoint conn limit1 limit2 :
  NoDup (products_ai.id <$> db conn) →
  let '(records1, conn1) := fetch_pending_records env conn limit1 in
  let '(records2, conn2) := fetch_pending_records env conn1 limit2 in
  (∀ r, r ∈ db conn1 → products_ai.id r ∈ rec_id <$> records1 →
        crawl_status r = Some true)
  ∧ (∀ i, i ∈ rec_id <$> records1 → i ∉ rec_id <$> records2).
Proof.
  intros Hnd.
  destruct (decide (is_Some (db_fault env (db_ops conn)) ∨ limit1 < 0
                    ∨ bigint_max < limit1)) as [Hf|Hok].
  { rewrite (fetch_pending_records_fault env conn limit1 Hf).
    destruct (fetch_pending_records env _ limit2) as [records2 conn2].
    split; [intros r _ Hin|intros i Hin]; by apply elem_of_nil in Hin. }
  rewrite fetch_pending_records_ok;
    [|destruct (db_fault env (db_ops conn)); [destruct Hok; eauto|done]|lia].
  set (n1 := Z.to_nat limit1).
  pose proof (returning_ids (db conn) n1 Hnd) as Hperm1.
  set (conn1 := World _ _ _ _).
  assert (∀ r, r ∈ db conn1 →
            products_ai.id r ∈ rec_id <$> (update_returning (db conn) n1).2 →
            crawl_status r = Some true) as Hflag.
  { intros r Hr Hin. rewrite Hperm1 in Hin.
    by destruct (update_returning_row _ _ _ Hr) as [[_ ?]|[? _]]. }
  assert (NoDup (products_ai.id <$> db conn1)) as Hnd1
    by (unfold conn1; cbn [db]; by rewrite update_returning_ids).
  destruct (decide (is_Some (db_fault env (db_ops conn1)) ∨ limit2 < 0
                    ∨ bigint_max < limit2)) as [Hf|Hok2].
  { rewrite (fetch_pending_records_fault env conn1 limit2 Hf).
    split; [done|]. intros i _. apply not_elem_of_nil. }
  rewrite fetch_pending_records_ok;
    [|destruct (db_fault env (db_ops conn1)); [destruct Hok2; eauto|done]|lia].
  split; [done|]. intros i Hi1 Hi2.
  rewrite (returning_ids _ _ Hnd1) in Hi2.
  destruct (select_pending_eligible _ _ _ Hi2) as (r & Hr & (_ & _ & Hcrawl) & <-).
  by rewrite (Hflag r Hr Hi1) in Hcrawl.
Qed.

(** X6.  A limit of zero or below claims nothing: the empty list is returned and
    the table is left as it was. *)
Theorem claim_with_no_limit conn limit :
  limit ≤ 0 →
  (fetch_pending_records env conn limit).1 = []
  ∧ db (fetch_pending_records env conn limit).2 = db conn.
Proof.
  intros Hl.
  destruct (decide (is_Some (db_fault env (db_ops conn)) ∨ limit < 0
                    ∨ bigint_max < limit)) as [Hf|Hok].
  { by rewrite (fetch_pending_records_fault env conn limit Hf). }
  assert (limit = 0) as -> by lia.
  rewrite fetch_pending_records_ok;
    [|destruct (db_fault env (db_ops conn)); [destruct Hok; eauto|done]|lia].
  by rewrite update_returning_none.
Qed.

(** X7.  When no row is eligible the claim returns the empty list and leaves
    the table as it was, like a failed claim. *)
Theorem claim_with_nothing_eligible conn limit :
  (∀ r, r ∈ db conn → ¬ eligible r) →
  (fetch_pending_records env conn limit).1 = []
  ∧ db (fetch_pending_records env conn limit).2 = db conn.
Proof.
  intros Hno.
  destruct (decide (is_Some (db_fault env (db_ops conn)) ∨ limit < 0
                    ∨ bigint_max < limit)) as [Hf|Hok].
  { by rewrite (fetch_pending_records_fault env conn limit Hf). }
  rewrite fetch_pending_records_ok;
    [|destruct (db_fault env (db_ops conn)); [destruct Hok; eauto|done]|lia].
  by rewrite update_returning_none by by apply select_pending_none_eligible.
Qed.

Lemma update_prompt_claim_part table rid p now :
  claim_part <$> update_prompt table rid p now = claim_part <$> table.
Proof.
  unfold update_prompt. rewrite <- list_fmap_compose.
  apply list_fmap_ext. intros i r _. simpl. by case_decide.
Qed.

Lemma update_prompt_unknown table rid p now :
  rid ∉ products_ai.id <$> table → update_prompt table rid p now = table.
Proof.
  intros Hout. unfold update_prompt. rewrite <- (list_fmap_id table) at 2.
  apply list_fmap_ext. intros i r Hr. rewrite decide_False; [done|].
  intros <-. apply Hout, list_elem_of_fmap_2. by eapply list_elem_of_lookup_2.
Qed.

Lemma update_prompt_read_back table rid p now r' :
  r' ∈ update_prompt table rid p now → products_ai.id r' = rid →
  prompt_veo3 r' = Some p ∧ updated_at r' = Some now.
Proof.
  unfold update_prompt. intros (r & -> & Hr)%list_elem_of_fmap.
  by case_decide.
Qed.

(** X8.  What [update_record] does to the table.  Without a fault, every
    row with the given id afterwards holds the given text and the time of
    the transaction, and an id that is not in the table changes nothing.
    With a fault the table is left as it was.  In both cases no column other
    than prompt_veo3 and updated_at changes in any row, and the rows are
    kept in number and order. *)
Theorem update_record_effect conn record_id p :
  let conn' := update_record env conn record_id p in
  claim_part <$> db conn' = claim_part <$> db conn
  ∧ match db_fault env (db_ops conn) with
    | Some _ => db conn' = db conn
    | None =>
        (∀ r, r ∈ db conn' → products_ai.id r = record_id →
              prompt_veo3 r = Some p ∧ updated_at r = Some (NOW env (db_ops conn)))
        ∧ (record_id ∉ products_ai.id <$> db conn → db conn' = db conn)
    end.
Proof.
  unfold update_record. cbn [emit db db_ops api_calls trace].
  destruct (db_fault env (db_ops conn)); cbn [db]; [done|].
  split; [apply update_prompt_claim_part|]. split.
  - intros r. apply update_prompt_read_back.
  - apply update_prompt_unknown.
Qed.

End StoreEffects.

Lemma successive_claims_disjoint_witness :
  let conn1 := (fetch_pending_records (scripted []) (fresh mixed_table) 2).2 in
  Forall (λ i, i ∉ rec_id <$> (fetch_pending_records (scripted []) conn1 2).1)
         (rec_id <$> (fetch_pending_records (scripted []) (fresh mixed_table) 2).1).
Proof.
  intros conn1. apply Forall_forall.
  assert (NoDup (products_ai.id <$> db (fresh mixed_table))) as Hnd
    by (apply (bool_decide_unpack _); vm_compute; exact I).
  pose proof (successive_claims_disjoint (scripted []) (fresh mixed_table) 2 2 Hnd) as H.
  unfold conn1.
  destruct (fetch_pending_records (scripted []) (fresh mixed_table) 2)
    as [records1 c1].
  cbn [fst snd] in *.
  destruct (fetch_pending_records (scripted []) c1 2) as [records2 c2].
  exact (proj2 H).
Defined.

Lemma claim_with_no_limit_witness :
  (fetch_pending_records (scripted []) (fresh mixed_table) 0).1 = []
  ∧ db (fetch_pending_records (scripted []) (fresh mixed_table) 0).2 = mixed_table.
Proof. apply (claim_with_no_limit (scripted []) (fresh mixed_table) 0). lia. Defined.

Lemma claim_with_nothing_eligible_witness :
  (fetch_pending_records (scripted []) (fresh all_done) 30).1 = []
  ∧ db (fetch_pending_records (scripted []) (fresh all_done) 30).2 = all_done.
Proof.
  apply (claim_with_nothing_eligible (scripted []) (fresh all_done) 30).
  apply Forall_forall, (bool_decide_unpack _). vm_compute. exact I.
Defined.

(** * Contiguous parts of a text *)

Section Infix.

Lemma prefix_infix p s :
  String.prefix p s = true ↔ ∃ post, s = p +:+ post.
Proof.
  revert s. induction p as [|a p IH]; intros s.
  - rewrite prefix_empty. split; [by exists s|done].
  - destruct s as [|b s].
    + split; [done|]. by intros [post ?].
    + rewrite prefix_cons, andb_true_iff, bool_decide_eq_true, IH. split.
      * intros [-> [post ->]]. by exists post.
      * intros [post [= -> ->]]. split; [done|]. by exists post.
Qed.

Lemma infix_refl s : infix s s.
Proof.
  exists EmptyString, EmptyString. change (s = s +:+ EmptyString).
  induction s as [|a s IH]; [done|]. exact (f_equal (String a) IH).
Qed.

Lemma append_nil_r s : s +:+ EmptyString = s.
Proof. induction s as [|a s IH]; [done|]. exact (f_equal (String a) IH). Qed.

Lemma infix_trans x y z : infix x y → infix y z → infix x z.
Proof.
  intros (p1 & q1 & ->) (p2 & q2 & ->).
  exists (p2 +:+ p1), (q1 +:+ q2). by rewrite !append_assoc.
Qed.

Lemma infix_cons a x s : infix x s → infix x (String a s).
Proof. intros (pre & post & ->). by exists (String a pre), post. Qed.

Lemma infix_prefix x post : infix x (x +:+ post).
Proof. by exists EmptyString, post. Qed.

Lemma infix_suffix pre x : infix x (pre +:+ x).
Proof. exists pre, EmptyString. by rewrite append_nil_r. Qed.

(** [sub in s] holds exactly when [sub] is a contiguous part of [s]. *)
Lemma contains_infix sub s : PyStr.contains sub s = true ↔ infix sub s.
Proof.
  split.
  - induction s as [|a s IH]; cbn [PyStr.contains];
      rewrite orb_true_iff, prefix_infix.
    + intros [[post ->]|?]; [apply infix_prefix|done].
    + intros [[post ->]|Hc]; [apply infix_prefix|]. by apply infix_cons, IH.
  - intros (pre & post & ->). induction pre as [|a pre IH].
    + change (PyStr.contains sub (sub +:+ post) = true).
      assert (String.prefix sub (sub +:+ post) = true) as Hp
        by (apply prefix_infix; by exists post).
      destruct (sub +:+ post); cbn [PyStr.contains]; by rewrite Hp.
    + change (PyStr.contains sub (String a (pre +:+ sub +:+ post)) = true).
      cbn [PyStr.contains]. rewrite IH. apply orb_true_r.
Qed.

Lemma substring_prefix_of m s : ∃ post, s = String.substring 0 m s +:+ post.
Proof.
  revert m. induction s as [|b s IH]; intros m.
  - exists EmptyString. by destruct m.
  - destruct m as [|m]; [by exists (String b s)|].
    destruct (IH m) as [post Hs]. exists post.
    cbn [String.substring]. exact (f_equal (String b) Hs).
Qed.

Lemma substring_infix n m s : infix (String.substring n m s) s.
Proof.
  revert n. induction s as [|a s IH]; intros n.
  - destruct n, m; apply infix_refl.
  - destruct n as [|n].
    + destruct (substring_prefix_of m (String a s)) as [post Hs].
      by exists EmptyString, post.
    + cbn [String.substring]. apply infix_cons, IH.
Qed.

Lemma lstrip_infix s : infix (PyStr.lstrip s) s.
Proof.
  induction s as [|a s IH]; [apply infix_refl|]. simpl.
  destruct (PyStr.isspace a); [by apply infix_cons|apply infix_refl].
Qed.

Lemma rstrip_prefix_of s : ∃ post, s = PyStr.rstrip s +:+ post.
Proof.
  induction s as [|a s [post IH]]; [by exists EmptyString|].
  rewrite PyStrFacts.rstrip_cons. case_decide as He.
  - destruct (PyStr.isspace a); [by exists (String a s)|by exists s].
  - exists post. exact (f_equal (String a) IH).
Qed.

Lemma rstrip_infix s : infix (PyStr.rstrip s) s.
Proof. destruct (rstrip_prefix_of s) as [post Hs]. by exists EmptyString, post. Qed.

Lemma strip_infix s : infix (PyStr.strip s) s.
Proof.
  unfold PyStr.strip. eapply infix_trans; [apply lstrip_infix|apply rstrip_infix].
Qed.

Lemma unfenced_infix text : infix (unfenced text) text.
Proof.
  unfold unfenced.
  repeat match goal with
         | |- context [if ?b then _ else _] => destruct b
         end;
    repeat (first [ apply strip_infix
                  | eapply infix_trans; [apply substring_infix|] ]).
Qed.

(** X9.  The cleaner returns a contiguous part of its input, without surrounding
    whitespace: it never adds, changes or reorders a character. *)
Theorem clean_json_response_part text :
  infix (clean_json_response text) text
  ∧ PyStr.strip (clean_json_response text) = clean_json_response text.
Proof.
  rewrite clean_json_response_unfenced. cbv zeta. split; [|apply strip_idem].
  eapply infix_trans; [apply strip_infix|].
  destruct (braces_in_order _); [|apply unfenced_infix].
  eapply infix_trans; [apply substring_infix|apply unfenced_infix].
Qed.

End Infix.

(** * Echo, acceptance *)

Section Acceptance.

Context (env : environment).

(** X10.  The rendered prompt begins with the text the validation block looks
    for, so a response that holds the prompt of its record is rejected as an
    echo, whatever else it holds. *)
Theorem echoed_prompt_is_rejected (r : record) p cleaned raw :
  generate_prompt_text env r = Some p →
  PyStr.contains p raw = true →
  validate_response env cleaned raw = EchoedInstructions.
Proof.
  intros [= <-] Hin. apply validate_echoed, contains_infix.
  apply contains_infix in Hin. eapply infix_trans; [|exact Hin].
  assert (String.prefix "You are an Elite AI" VEO3_PROMPT_TEMPLATE_head = true)
    as [rest ->]%prefix_infix by by vm_compute.
  rewrite append_assoc. apply infix_prefix.
Qed.

(** X11.  A response passes only when it is free of the template marker and its
    cleaned text decodes to an object that holds both fields with values
    that are texts or lists. *)
Theorem accepted_is_object cleaned raw :
  validate_response env cleaned raw = ValidationPassed →
  PyStr.contains "You are an Elite AI" raw = false
  ∧ ∃ members x1 x2,
      json_loads env cleaned = Parsed (JObject members)
      ∧ dict_get "part1_prompt" members = Some x1
      ∧ dict_get "part2_prompt" members = Some x2
      ∧ sliceable x1 ∧ sliceable x2.
Proof.
  unfold validate_response, required_fields_present, show_part.
  destruct (PyStr.contains _ raw); [done|].
  destruct (json_loads env cleaned) as [v| |]; [|done|done].
  intros Hv. split; [done|].
  destruct v as [|b|lit|s|items|members]; cbn [py_in py_getitem] in Hv;
    try done.
  - destruct (PyStr.contains "part1_prompt" s); [|by destruct (py_keys _)].
    by destruct (PyStr.contains "part2_prompt" s).
  - destruct (existsb (is_json_string "part1_prompt") items);
      [|by destruct (py_keys _)].
    by destruct (existsb (is_json_string "part2_prompt") items).
  - exists members.
    destruct (bool_decide ("part1_prompt" ∈ members.*1)); [|done].
    destruct (bool_decide ("part2_prompt" ∈ members.*1)); [|done].
    destruct (dict_get "part1_prompt" members) as [x1|]; [|done].
    destruct (dict_get "part2_prompt" members) as [x2|];
      [|by destruct (py_slice_ok x1)].
    exists x1, x2. split; [done|]. split; [done|]. split; [done|].
    destruct x1, x2; try done.
Qed.

End Acceptance.

Lemma echoed_prompt_is_rejected_witness :
  validate_response (scripted []) good_payload
    ("Sure! " +:+ prompt_for "A" +:+ good_payload)
  = EchoedInstructions.
Proof.
  apply (echoed_prompt_is_rejected (scripted []) record_A (prompt_for "A")).
  - reflexivity.
  - reflexivity.
Defined.

Lemma accepted_is_object_witness :
  PyStr.contains "You are an Elite AI" good_answer = false
  ∧ ∃ members x1 x2,
      json_loads (scripted []) (clean_json_response good_answer)
        = Parsed (JObject members)
      ∧ dict_get "part1_prompt" members = Some x1
      ∧ dict_get "part2_prompt" members = Some x2
      ∧ sliceable x1 ∧ sliceable x2.
Proof. apply accepted_is_object. reflexivity. Defined.

(** * Cleaning a cleaned object *)

Section Idempotence.

Lemma snoc_inj x y (c d : ascii) :
  x +:+ String c EmptyString = y +:+ String d EmptyString → x = y ∧ c = d.
Proof.
  revert y. induction x as [|a x IH]; intros [|b y] Heq.
  - by injection Heq as ->.
  - injection Heq as _ Heq. by destruct y.
  - injection Heq as _ Heq. by destruct x.
  - injection Heq as -> Heq. destruct (IH y Heq) as [-> ->]. done.
Qed.

Lemma rindex_of_snoc c x :
  PyStr.rindex_of c (x +:+ String c EmptyString) = Some (String.length x).
Proof.
  induction x as [|a x IH].
  - change (PyStr.rindex_of c (String c EmptyString) = Some 0%nat).
    simpl. by rewrite Ascii.eqb_refl.
  - change (PyStr.rindex_of c (String a (x +:+ String c EmptyString))
            = Some (S (String.length x))).
    cbn [PyStr.rindex_of]. by rewrite IH.
Qed.

Lemma substring_full s : String.substring 0 (String.length s) s = s.
Proof.
  rewrite <- (append_nil_r s) at 2. apply substring_prefix.
Qed.

Lemma drop_suffix_of n s : ∃ pre, s = pre +:+ PyStr.drop n s.
Proof.
  unfold PyStr.drop, PyStr.len. revert n.
  induction s as [|a s IH]; intros n.
  - exists EmptyString. by destruct n.
  - destruct n as [|n].
    + exists EmptyString. by rewrite Nat.sub_0_r, substring_full.
    + destruct (IH n) as [pre Hs]. exists (String a pre).
      cbn [String.length String.substring Nat.sub].
      exact (f_equal (String a) Hs).
Qed.

Lemma endswith_snoc p x (c d : ascii) :
  c ≠ d →
  PyStr.endswith (p +:+ String c EmptyString) (x +:+ String d EmptyString) = false.
Proof.
  intros Hcd. unfold PyStr.endswith.
  destruct (Nat.leb _ _); [|done]. cbn [andb].
  apply String.eqb_neq. intros Heq.
  destruct (drop_suffix_of
              (PyStr.len (x +:+ String d EmptyString)
               - PyStr.len (p +:+ String c EmptyString))
              (x +:+ String d EmptyString)) as [pre Hs].
  rewrite Heq, <- append_assoc in Hs.
  apply snoc_inj in Hs as [_ ->]. done.
Qed.

(** A text from [{] to [}] is left as it is by the cleaner. *)
Lemma clean_json_response_braced mid :
  clean_json_response (String "{" (mid +:+ String "}" EmptyString))
  = String "{" (mid +:+ String "}" EmptyString).
Proof.
  set (o := String "{" (mid +:+ String "}" EmptyString)).
  assert (PyStr.strip o = o) as Hstrip.
  { unfold PyStr.strip, o.
    change (String "{" (mid +:+ String "}" EmptyString))
      with (String "{" mid +:+ String "}" EmptyString).
    by rewrite rstrip_nonspace_end. }
  assert (String.prefix "```json" o = false) as Hp1.
  { unfold o. rewrite prefix_cons. by rewrite bool_decide_eq_false_2. }
  assert (String.prefix "```" o = false) as Hp2.
  { unfold o. rewrite prefix_cons. by rewrite bool_decide_eq_false_2. }
  assert (PyStr.endswith "```" o = false) as Hp3
    by exact (endswith_snoc "``" (String "{" mid) "`" "}" ltac:(done)).
  assert (unfenced o = o) as Hunf.
  { unfold unfenced. rewrite Hstrip. unfold PyStr.startswith.
    by rewrite Hp1, Hp2, Hp3. }
  assert (PyStr.rfind "}" o = Z.of_nat (S (String.length mid))) as Hrfind.
  { unfold PyStr.rfind, o.
    change (String "{" (mid +:+ String "}" EmptyString))
      with (String "{" mid +:+ String "}" EmptyString).
    by rewrite rindex_of_snoc. }
  assert (PyStr.find "{" o = 0) as Hfind by done.
  rewrite clean_json_response_unfenced. cbv zeta. rewrite Hunf.
  unfold braces_in_order. rewrite Hfind, Hrfind.
  assert ((Z.of_nat (S (String.length mid)) =? -1) = false) as ->
    by (apply Z.eqb_neq; lia).
  assert ((Z.of_nat (S (String.length mid)) >? 0) = true) as ->
    by (apply Z.gtb_lt; lia).
  cbn [negb andb Z.eqb]. unfold PyStr.slice.
  assert (Z.to_nat (Z.of_nat (S (String.length mid)) + 1 - 0) = String.length o) as ->.
  { unfold o. cbn [String.length]. rewrite append_length. cbn [String.length]. lia. }
  change (Z.to_nat 0) with 0%nat. by rewrite substring_full.
Qed.

(** X12.  Cleaning is idempotent on a response that holds an object: the cleaned
    text is left as it is by a second cleaning. *)
Theorem clean_json_response_idempotent text :
  braces_in_order (unfenced text) = true →
  clean_json_response (clean_json_response text) = clean_json_response text.
Proof.
  intros Hb.
  destruct (clean_json_response_object text Hb) as (pre & mid & post & _ & _ & _ & ->).
  apply clean_json_response_braced.
Qed.

End Idempotence.

Lemma clean_json_response_idempotent_witness :
  clean_json_response (clean_json_response good_answer)
  = clean_json_response good_answer.
Proof. apply clean_json_response_idempotent. reflexivity. Defined.

(** Without an object the cleaner is not idempotent: a second cleaning can
    remove a fence the first one left. *)
Example clean_twice :
  clean_json_response "``` ```x" = "```x"
  ∧ clean_json_response (clean_json_response "``` ```x") = "x".
Proof. by vm_compute. Qed.

(** * Counting what a run does *)

Section Effects.

Context (env : environment).

Lemma generated_app evs1 evs2 :
  generated (evs1 ++ evs2) = generated evs1 ++ generated evs2.
Proof. apply omap_app. Qed.

Lemma persisted_app evs1 evs2 :
  persisted (evs1 ++ evs2) = persisted evs1 ++ persisted evs2.
Proof. apply omap_app. Qed.

Lemma unwritten_refl (l : list row) : Forall2 unwritten l l.
Proof. apply Forall_Forall2_diag, Forall_forall. intros r _. by left. Qed.

Lemma unwritten_trans (l1 l2 l3 : list row) :
  Forall2 unwritten l1 l2 → Forall2 unwritten l2 l3 → Forall2 unwritten l1 l3.
Proof.
  intros H12. revert l3. induction H12 as [|r1 r2 l1 l2 Hr _ IH]; intros l3 H23.
  { by inversion H23. }
  inversion H23 as [|? r3 ? l3' Hr' H23']; subst. constructor; [|by apply IH].
  unfold unwritten in *. destruct Hr' as [->|Hr']; [done|by right].
Qed.

Lemma update_prompt_unwritten table rid p now :
  Forall2 unwritten table (update_prompt table rid p now).
Proof.
  unfold update_prompt. apply Forall2_fmap_r, Forall_Forall2_diag, Forall_forall.
  intros r _. unfold unwritten, compose.
  destruct (decide (products_ai.id r = rid)); [by right|by left].
Qed.

Lemma attempt_events_observed p i :
  generated (attempt_events p i) = [p]
  ∧ persisted (attempt_events p i) = []
  ∧ started (attempt_events p i) = [].
Proof. unfold attempt_events. by destruct (0 <? i)%nat. Qed.

(** One pass through the retry loop emits its sleep and its call, and at
    most the cookie notice after them. *)
Lemma attempt_emits p i l w :
  ∃ f l' evs,
    attempt env p i l w
      = (f, l', World (db w) (S (api_calls w)) (db_ops w)
                      (trace w ++ attempt_events p i ++ evs))
    ∧ (evs = [] ∨ evs = [EvCookieWarning]).
Proof.
  unfold attempt.
  set (w1 := if (0 <? i)%nat then emit (EvSleep 3) w else w).
  assert (db w1 = db w ∧ api_calls w1 = api_calls w ∧ db_ops w1 = db_ops w
          ∧ trace w1 ++ [EvGenerate p] = trace w ++ attempt_events p i)
    as (Hdb & Hapi & Hops & Htr).
  { unfold w1, attempt_events. destruct (0 <? i)%nat; simpl;
      by rewrite <- ?(assoc_L (++)). }
  set (w2 := emit _ _).
  assert (w2 = World (db w) (S (api_calls w)) (db_ops w)
                     (trace w ++ attempt_events p i)) as Hw2.
  { unfold w2, emit. simpl. by rewrite Hdb, Hapi, Hops, Htr. }
  rewrite Hapi.
  assert (∀ e l0, ∃ (f : flow) (l' : locals) (evs : list event),
    (let '(f, w) := api_error_handler e i w2 in (f, l0, w))
      = (f, l', World (db w) (S (api_calls w)) (db_ops w)
                      (trace w ++ attempt_events p i ++ evs))
    ∧ (evs = [] ∨ evs = [EvCookieWarning])) as Hhandler.
  { intros e l0. destruct (handler_spec e i w2) as (f & evs & -> & _ & Hevs & _).
    exists f, l0, evs. rewrite Hw2. cbn [db api_calls db_ops trace].
    rewrite <- (assoc_L (++)). split; [done|].
    subst evs. destruct (session_invalid _); auto. }
  destruct (generate_content env (api_calls w) p) as [t|e]; [|apply Hhandler].
  destruct (validate_response env (clean_json_response t) t);
    try apply Hhandler;
    eexists _, _, []; rewrite app_nil_r, Hw2; auto.
Qed.

(** The retry loop: one call per pass, each with the prompt of the record;
    no record is started and nothing is persisted inside it. *)
Lemma retry_loop_effect p attempts l w :
  ∃ r calls evs,
    retry_loop env p attempts l w
      = (r, World (db w) (api_calls w + calls) (db_ops w) (trace w ++ evs))
    ∧ (calls ≤ length attempts)%nat
    ∧ generated evs = replicate calls p
    ∧ persisted evs = []
    ∧ started evs = [].
Proof.
  revert l w. induction attempts as [|i rest IH]; intros l w.
  { exists (inr l), 0%nat, []. rewrite Nat.add_0_r, app_nil_r.
    split; [by destruct w|]. by repeat split. }
  cbn [retry_loop].
  destruct (attempt_emits p i l w) as (f & l' & evs & -> & Hevs).
  destruct (attempt_events_observed p i) as (Hg & Hp & Hs).
  assert (generated (attempt_events p i ++ evs) = [p]
          ∧ persisted (attempt_events p i ++ evs) = []
          ∧ started (attempt_events p i ++ evs) = []) as (Hg1 & Hp1 & Hs1).
  { rewrite generated_app, persisted_app, started_app, Hg, Hp, Hs.
    by destruct Hevs as [-> | ->]. }
  destruct f as [| |e].
  - destruct (IH l' (World (db w) (S (api_calls w)) (db_ops w)
                      (trace w ++ attempt_events p i ++ evs)))
      as (r & calls & evs' & -> & Hcalls & Hg2 & Hp2 & Hs2).
    exists r, (S calls), ((attempt_events p i ++ evs) ++ evs').
    cbn [db api_calls db_ops trace].
    rewrite <- !(assoc_L (++)), Nat.add_succ_r. split; [done|].
    split; [simpl; lia|].
    rewrite !(assoc_L (++)), generated_app, persisted_app, started_app.
    by rewrite Hg1, Hp1, Hs1, Hg2, Hp2, Hs2.
  - exists (inr l'), 1%nat, (attempt_events p i ++ evs).
    rewrite Nat.add_1_r. split; [done|]. split; [simpl; lia|]. done.
  - exists (inl e), 1%nat, (attempt_events p i ++ evs).
    rewrite Nat.add_1_r. split; [done|]. split; [simpl; lia|]. done.
Qed.

Lemma update_record_writes w rid p :
  ∃ table,
    update_record env w rid p
      = World table (api_calls w) (S (db_ops w)) (trace w ++ [EvUpdate rid p])
    ∧ claim_part <$> table = claim_part <$> db w
    ∧ Forall2 unwritten (db w) table.
Proof.
  unfold update_record. cbn [emit db_ops db api_calls trace].
  destruct (db_fault env (db_ops w)).
  - exists (db w). split; [done|]. split; [done|apply unwritten_refl].
  - eexists. split; [done|].
    split; [apply update_prompt_claim_part|apply update_prompt_unwritten].
Qed.

Lemma pace_effect idx total w :
  ∃ evs,
    pace idx total w = World (db w) (api_calls w) (db_ops w) (trace w ++ evs)
    ∧ generated evs = [] ∧ persisted evs = [] ∧ started evs = [].
Proof.
  unfold pace. destruct (idx <? total)%nat.
  - by exists [EvSleep 15].
  - exists []. rewrite app_nil_r. by destruct w.
Qed.

(** The body of the loop over the records: at most four backend calls, all
    with the prompt of the record; at most one persist transaction, for the
    id of the record; no column other than prompt_veo3 and updated_at is
    written. *)
Lemma process_record_effect idx total (r : record) w :
  ∃ res w' evs,
    process_record env idx total r w = (res, w')
    ∧ trace w' = trace w ++ EvRecord (rec_id r) :: evs
    ∧ started evs = []
    ∧ api_calls w' = (api_calls w + length (generated evs))%nat
    ∧ (length (generated evs) ≤ max_prompt_retries)%nat
    ∧ db_ops w' = (db_ops w + length (persisted evs))%nat
    ∧ (length (persisted evs) ≤ 1)%nat
    ∧ (∀ x, x ∈ persisted evs →
         ∃ p l w1,
           generate_prompt_text env r = Some p
           ∧ retry_loop env p (seq 0 max_prompt_retries) (Locals false "")
                        (emit (EvRecord (rec_id r)) w) = (inr l, w1)
           ∧ valid_response_received l = true
           ∧ x = (rec_id r, cleaned_response l))
    ∧ claim_part <$> db w' = claim_part <$> db w
    ∧ Forall2 unwritten (db w) (db w').
Proof.
  destruct (rec_title r) as [t|] eqn:Ht.
  2:{ rewrite missing_title_raises by done. eexists _, _, [].
      split; [done|]. cbn. rewrite !Nat.add_0_r.
      split_and!;
        first [done | lia | by intros x ?%elem_of_nil | apply unwritten_refl]. }
  destruct (render_never_fails env r) as (p & Hp & _).
  rewrite (process_record_unfold env _ _ _ _ _ _ Ht Hp).
  destruct (retry_loop_effect p (seq 0 max_prompt_retries) (Locals false "")
              (emit (EvRecord (rec_id r)) w))
    as (res & calls & evs & Hloop & Hcalls & Hg & Hp0 & Hs).
  rewrite Hloop. rewrite length_seq in Hcalls.
  cbn [emit db api_calls db_ops trace].
  set (w1 := World _ _ _ _).
  assert (length (generated evs) = calls) as Hlen
    by by rewrite Hg, length_replicate.
  destruct res as [e|l]; [|destruct (valid_response_received l) eqn:Hflag].
  - destruct (pace_effect idx total w1) as (evs2 & -> & Hg2 & Hp2 & Hs2).
    eexists _, _, (evs ++ evs2). split; [done|]. cbn.
    rewrite <- !(assoc_L (++)), generated_app, persisted_app, started_app.
    rewrite Hg2, Hp2, Hs2, Hp0, Hs, !app_nil_r, Hlen. cbn.
    rewrite Nat.add_0_r.
    split_and!;
      first [done | lia | by intros x ?%elem_of_nil | apply unwritten_refl].
  - destruct (update_record_writes w1 (rec_id r) (cleaned_response l))
      as (tbl & -> & Htbl & Hun).
    set (w2 := World _ _ _ _).
    destruct (pace_effect idx total w2) as (evs2 & -> & Hg2 & Hp2 & Hs2).
    set (u := EvUpdate (rec_id r) (cleaned_response l)).
    assert (generated (evs ++ [u] ++ evs2) = generated evs
            ∧ persisted (evs ++ [u] ++ evs2)
                = [(rec_id r, cleaned_response l)]
            ∧ started (evs ++ [u] ++ evs2) = []) as (Hg3 & Hp3 & Hs3).
    { rewrite !generated_app, !persisted_app, !started_app.
      rewrite Hg2, Hp2, Hs2, Hp0, Hs. cbn. by rewrite app_nil_r. }
    exists None, (World tbl (api_calls w1) (S (db_ops w1))
                   ((trace w1 ++ [u]) ++ evs2)), (evs ++ [u] ++ evs2).
    split; [done|]. rewrite Hg3, Hp3, Hs3, Hlen.
    cbn [db api_calls db_ops trace w1 length].
    rewrite <- !(assoc_L (++)).
    split_and!; first [done | lia | idtac].
    intros x ->%list_elem_of_singleton. by eexists p, l, _.
  - eexists _, _, evs. split; [done|]. cbn.
    rewrite <- !(assoc_L (++)), Hp0, Hs, Hlen. cbn. rewrite Nat.add_0_r.
    split_and!;
      first [done | lia | by intros x ?%elem_of_nil | apply unwritten_refl].
Qed.


(** The loop over the records: the records are started in order, as a
    prefix of the list; the loop makes at most four backend calls and at
    most one persist transaction per started record, and persists only for
    records it started. *)
Lemma records_loop_effect idx total (records : list record) w :
  ∃ res w' evs,
    records_loop env idx total records w = (res, w')
    ∧ trace w' = trace w ++ evs
    ∧ started evs `prefix_of` rec_id <$> records
    ∧ api_calls w' = (api_calls w + length (generated evs))%nat
    ∧ (length (generated evs) ≤ max_prompt_retries * length (started evs))%nat
    ∧ db_ops w' = (db_ops w + length (persisted evs))%nat
    ∧ (persisted evs).*1 `sublist_of` started evs
    ∧ (∀ x, x ∈ persisted evs →
         ∃ r p l w0 w1,
           r ∈ records
           ∧ generate_prompt_text env r = Some p
           ∧ retry_loop env p (seq 0 max_prompt_retries) (Locals false "") w0
               = (inr l, w1)
           ∧ valid_response_received l = true
           ∧ x = (rec_id r, cleaned_response l))
    ∧ claim_part <$> db w' = claim_part <$> db w
    ∧ Forall2 unwritten (db w) (db w').
Proof.
  revert idx w. induction records as [|r rest IH]; intros idx w.
  { exists None, w, []. rewrite app_nil_r, !Nat.add_0_r.
    split_and!;
      first [done | apply unwritten_refl | by intros x ?%elem_of_nil]. }
  cbn [records_loop].
  destruct (process_record_effect idx total r w)
    as (res & w1 & evs1 & -> & Htr1 & Hs1 & Hapi1 & Hg1 & Hops1 & Hp1 & Hid1
        & Hdb1 & Hun1).
  assert ((persisted evs1).*1 `sublist_of` [rec_id r]) as Hsub1.
  { destruct (persisted evs1) as [|x [|y rest']] eqn:Hpe; [|..].
    - apply sublist_nil_l.
    - destruct (Hid1 x) as (? & ? & ? & _ & _ & _ & ->);
        [apply list_elem_of_here|done].
    - simpl in Hp1. lia. }
  assert (started (EvRecord (rec_id r) :: evs1) = [rec_id r]
          ∧ generated (EvRecord (rec_id r) :: evs1) = generated evs1
          ∧ persisted (EvRecord (rec_id r) :: evs1) = persisted evs1)
    as (Hs1' & Hg1' & Hp1').
  { change (EvRecord (rec_id r) :: evs1) with ([EvRecord (rec_id r)] ++ evs1).
    rewrite started_app, generated_app, persisted_app, Hs1. done. }
  destruct res as [e|].
  - exists (Some e), w1, (EvRecord (rec_id r) :: evs1).
    rewrite Hs1', Hg1', Hp1'. cbn [length fmap list_fmap].
    split_and!; [done|done| |lia|unfold max_prompt_retries in *; lia|lia
                |done| |done|done].
    + by apply list_relations.list.prefix_cons, prefix_nil.
    + intros x Hx. destruct (Hid1 x Hx) as (p & l & w1' & ? & ? & ? & ?).
      exists r, p, l. eexists _, _. split; [apply list_elem_of_here|done].
  - destruct (IH (S idx) w1)
      as (res & w2 & evs2 & -> & Htr2 & Hs2 & Hapi2 & Hg2 & Hops2 & Hsub2
          & Hid2 & Hdb2 & Hun2).
    exists res, w2, ((EvRecord (rec_id r) :: evs1) ++ evs2).
    rewrite started_app, generated_app, persisted_app, Hs1', Hg1', Hp1'.
    rewrite !length_app. cbn [length fmap list_fmap app].
    split_and!.
    + done.
    + by rewrite Htr2, Htr1, <- (assoc_L (++)).
    + by apply list_relations.list.prefix_cons.
    + lia.
    + unfold max_prompt_retries in *. lia.
    + lia.
    + rewrite fmap_app. by apply (sublist_app _ [rec_id r]).
    + intros x [Hx|Hx]%elem_of_app.
      * destruct (Hid1 x Hx) as (p & l & w1' & ? & ? & ? & ?).
        exists r, p, l. eexists _, _. split; [apply list_elem_of_here|done].
      * destruct (Hid2 x Hx) as (r' & p & l & w0 & w1' & ? & ?).
        exists r', p, l, w0, w1'. split; [by apply list_elem_of_further|done].
    + by rewrite Hdb2.
    + by eapply unwritten_trans.
Qed.

End Effects.

(** * A whole run *)

Section Run.

Context (env : environment).

Lemma fixed_part_claim_part (l1 l2 : list row) :
  claim_part <$> l1 = claim_part <$> l2 → fixed_part <$> l1 = fixed_part <$> l2.
Proof.
  intros Heq.
  assert (∀ l : list row, fixed_part <$> l = fst <$> (claim_part <$> l)) as Hfst.
  { intros l. rewrite <- list_fmap_compose. by apply list_fmap_ext. }
  by rewrite !Hfst, Heq.
Qed.

Lemma claim_part_elem (l1 l2 : list row) r2 :
  claim_part <$> l1 = claim_part <$> l2 → r2 ∈ l2 →
  ∃ r1, r1 ∈ l1 ∧ claim_part r1 = claim_part r2.
Proof.
  intros Heq Hr2.
  assert (claim_part r2 ∈ claim_part <$> l1) as (r1 & Hc & Hr1)%list_elem_of_fmap
    by (rewrite Heq; by apply list_elem_of_fmap_2).
  by exists r1.
Qed.

Lemma update_returning_length table n :
  NoDup (products_ai.id <$> table) → (length (update_returning table n).2 ≤ n)%nat.
Proof.
  intros Hnd. rewrite <- (length_fmap rec_id), (returning_ids table n Hnd).
  unfold select_pending. rewrite length_take. lia.
Qed.

(** The claim: one transaction, and no column other than crawl_status is
    written. *)
Lemma fetch_pending_records_effect conn limit :
  ∃ table records,
    fetch_pending_records env conn limit
      = (records, World table (api_calls conn) (S (db_ops conn))
                        (trace conn ++ [EvClaim limit]))
    ∧ fixed_part <$> table = fixed_part <$> db conn
    ∧ (NoDup (products_ai.id <$> db conn) →
       (length records ≤ Z.to_nat limit)%nat ∧ NoDup (rec_id <$> records)).
Proof.
  destruct (decide (is_Some (db_fault env (db_ops conn)) ∨ limit < 0
                    ∨ bigint_max < limit)) as [Hf|Hok].
  { rewrite (fetch_pending_records_fault env conn limit Hf).
    eexists _, _. split; [done|]. split; [done|]. intros _.
    split; [simpl; lia|constructor]. }
  rewrite fetch_pending_records_ok;
    [|destruct (db_fault env (db_ops conn)); [destruct Hok; eauto|done]|lia].
  eexists _, _. split; [done|]. split; [apply update_returning_fixed|].
  intros Hnd. split; [by apply update_returning_length|].
  rewrite (returning_ids _ _ Hnd). by apply select_pending_NoDup.
Qed.

(** The rows of the table after a claim: flagged, or as before and not
    returned. *)
Lemma fetch_pending_records_row conn limit r' :
  r' ∈ db (fetch_pending_records env conn limit).2 →
  (products_ai.id r' ∈ rec_id <$> (fetch_pending_records env conn limit).1
   ∧ crawl_status r' = Some true)
  ∨ ((products_ai.id r' ∉ rec_id <$> (fetch_pending_records env conn limit).1)
     ∧ r' ∈ db conn
     ∧ (db_fault env (db_ops conn) = None → 0 ≤ limit ≤ bigint_max →
        products_ai.id r' ∉ select_pending (db conn) (Z.to_nat limit))).
Proof.
  destruct (decide (is_Some (db_fault env (db_ops conn)) ∨ limit < 0
                    ∨ bigint_max < limit)) as [Hf|Hok].
  { rewrite (fetch_pending_records_fault env conn limit Hf). cbn [fst snd db].
    intros Hr'. right. split; [apply not_elem_of_nil|]. split; [done|].
    intros Hnone Hl. destruct Hf as [[e He]|Hf]; [congruence|lia]. }
  rewrite fetch_pending_records_ok;
    [|destruct (db_fault env (db_ops conn)); [destruct Hok; eauto|done]|lia].
  cbn [fst snd db]. intros Hr'.
  assert (∀ i, i ∈ rec_id <$> (update_returning (db conn) (Z.to_nat limit)).2
               ↔ (i ∈ select_pending (db conn) (Z.to_nat limit)
                  ∧ i ∈ products_ai.id <$> db conn)) as Hret.
  { intros i. unfold update_returning. cbn [snd]. rewrite rec_id_returning.
    rewrite !list_elem_of_fmap. split.
    - intros (r & -> & [Hsel Hr]%list_elem_of_filter). split; [done|by exists r].
    - intros (Hsel & r & -> & Hr). exists r. split; [done|].
      by apply list_elem_of_filter. }
  destruct (update_returning_row _ _ _ Hr') as [[Hsel Hflag]|[Hsel Hin]].
  - left. split; [|done]. apply Hret. split; [done|].
    rewrite <- (update_returning_ids (db conn) (Z.to_nat limit)).
    by apply list_elem_of_fmap_2.
  - right. split; [|done]. intros Hin'. by apply Hret in Hin' as [? _].
Qed.

Lemma prefix_sublist {A} (l1 l2 : list A) : l1 `prefix_of` l2 → l1 `sublist_of` l2.
Proof. intros [k ->]. by apply sublist_inserts_r. Qed.

(** [records[:limit_records]] under [if limit_records:] *)
Lemma capped_prefix (records : list record) limit_records :
  match limit_records with
  | Some k => if k =? 0 then records else py_take k records
  | None => records
  end `prefix_of` records.
Proof.
  destruct limit_records as [k|]; [|done].
  destruct (k =? 0); [done|]. unfold py_take.
  destruct (k <? 0); apply prefix_take.
Qed.

Lemma process_records_with_api_effect conn limit_records :
  ∃ res conn' evs,
    process_records_with_api env conn limit_records = (res, conn')
    ∧ trace conn' = trace conn ++ EvClaim 30 :: evs
    ∧ started evs `prefix_of` rec_id <$> (fetch_pending_records env conn 30).1
    ∧ api_calls conn' = (api_calls conn + length (generated evs))%nat
    ∧ (length (generated evs) ≤ max_prompt_retries * length (started evs))%nat
    ∧ db_ops conn' = (S (db_ops conn) + length (persisted evs))%nat
    ∧ (persisted evs).*1 `sublist_of` started evs
    ∧ (∀ x, x ∈ persisted evs →
         ∃ r p l w0 w1,
           r ∈ (fetch_pending_records env conn 30).1
           ∧ generate_prompt_text env r = Some p
           ∧ retry_loop env p (seq 0 max_prompt_retries) (Locals false "") w0
               = (inr l, w1)
           ∧ valid_response_received l = true
           ∧ x = (rec_id r, cleaned_response l))
    ∧ claim_part <$> db conn' = claim_part <$> db (fetch_pending_records env conn 30).2
    ∧ Forall2 unwritten (db (fetch_pending_records env conn 30).2) (db conn').
Proof.
  unfold process_records_with_api.
  destruct (fetch_pending_records_effect conn 30) as (table & records & -> & _ & _).
  cbn [fst snd db].
  set (conn1 := World _ _ _ _).
  destruct records as [|r0 records0].
  { exists None, conn1, []. rewrite !Nat.add_0_r. cbn.
    split_and!;
      first [done | lia | apply prefix_nil | apply unwritten_refl
            | by intros x ?%elem_of_nil]. }
  set (records := r0 :: records0).
  pose proof (capped_prefix records limit_records) as Hcap.
  set (capped := match limit_records with Some _ => _ | None => _ end) in *.
  destruct (records_loop_effect env 1 (length capped) capped conn1)
    as (res & conn' & evs & -> & Htr & Hs & Hapi & Hg & Hops & Hsub & Hid
        & Hdb & Hun).
  exists res, conn', evs. split; [done|].
  split; [by rewrite Htr; unfold conn1; cbn; rewrite <- (assoc_L (++))|].
  split.
  { etrans; [exact Hs|]. destruct Hcap as [post Hpost].
    rewrite Hpost, fmap_app. by eexists. }
  split_and!; try done.
  intros x Hx. destruct (Hid x Hx) as (r' & p & l & w0 & w1 & Hr' & ?).
  exists r', p, l, w0, w1. split; [|done].
  destruct Hcap as [post Hpost]. rewrite Hpost.
  apply elem_of_app. by left.
Qed.

Lemma segments_cons i evs segs :
  segments ((i, evs) :: segs) = EvRecord i :: evs ++ segments segs.
Proof. done. Qed.

Lemma segments_observed i evs segs :
  started evs = [] →
  generated (segments ((i, evs) :: segs)) = generated evs ++ generated (segments segs)
  ∧ persisted (segments ((i, evs) :: segs))
    = persisted evs ++ persisted (segments segs).
Proof.
  intros _. rewrite segments_cons.
  change (EvRecord i :: evs ++ segments segs)
    with ([EvRecord i] ++ evs ++ segments segs).
  by rewrite !generated_app, !persisted_app.
Qed.

(** The loop over the records, record by record: what the processing of a
    record emits is about that record only, with at most four backend calls
    and at most one persist call. *)
Lemma records_loop_segments idx total (records : list record) w :
  ∃ res w' segs,
    records_loop env idx total records w = (res, w')
    ∧ trace w' = trace w ++ segments segs
    ∧ segs.*1 `prefix_of` rec_id <$> records
    ∧ Forall (λ s, Forall (record_event s.1) s.2
                   ∧ (length (generated s.2) ≤ max_prompt_retries)%nat
                   ∧ (length (persisted s.2) ≤ 1)%nat) segs
    ∧ api_calls w' = (api_calls w + length (generated (segments segs)))%nat
    ∧ db_ops w' = (db_ops w + length (persisted (segments segs)))%nat.
Proof.
  revert idx w. induction records as [|r rest IH]; intros idx w.
  { exists None, w, []. cbn. rewrite app_nil_r, !Nat.add_0_r.
    split_and!; first [done | constructor]. }
  cbn [records_loop].
  destruct (process_record_effect env idx total r w)
    as (res & w1 & evs1 & Hrec & Htr1 & Hs1 & Hapi1 & Hg1 & Hops1 & Hp1 & _).
  destruct (process_record_spec env idx total r w)
    as (res' & w1' & evs1' & Hrec' & Htr1' & Hev1 & _).
  rewrite Hrec in Hrec'. injection Hrec' as <- <-.
  rewrite Htr1 in Htr1'. apply (inj (app (trace w))) in Htr1'.
  injection Htr1' as <-.
  rewrite Hrec.
  assert (Forall (λ s : Z * list event,
            Forall (record_event s.1) s.2
            ∧ (length (generated s.2) ≤ max_prompt_retries)%nat
            ∧ (length (persisted s.2) ≤ 1)%nat) [(rec_id r, evs1)]) as Hseg
    by (apply Forall_singleton; cbn [fst snd]; done).
  destruct res as [e|].
  - exists (Some e), w1, [(rec_id r, evs1)].
    destruct (segments_observed (rec_id r) evs1 [] Hs1) as [-> ->].
    rewrite segments_cons. cbn [segments mbind list_bind app fmap list_fmap fst].
    rewrite !app_nil_r. split_and!; try done.
    by apply list_relations.list.prefix_cons, prefix_nil.
  - destruct (IH (S idx) w1)
      as (res & w2 & segs & -> & Htr2 & Hpre & Hsegs & Hapi2 & Hops2).
    exists res, w2, ((rec_id r, evs1) :: segs).
    destruct (segments_observed (rec_id r) evs1 segs Hs1) as [-> ->].
    rewrite segments_cons, !length_app. cbn [fmap list_fmap fst].
    split_and!.
    + done.
    + by rewrite Htr2, Htr1, <- (assoc_L (++)).
    + by apply list_relations.list.prefix_cons.
    + apply Forall_cons_2; [by inversion Hseg|done].
    + lia.
    + lia.
Qed.

Lemma segments_no_claim segs l :
  Forall (λ s : Z * list event, Forall (record_event s.1) s.2) segs →
  EvClaim l ∉ segments segs.
Proof.
  intros Hsegs Hin. unfold segments in Hin.
  apply list_elem_of_bind in Hin as ([i evs] & Hin & Hs).
  apply elem_of_cons in Hin as [?|Hin]; [done|].
  rewrite Forall_forall in Hsegs. specialize (Hsegs _ Hs). cbn in Hsegs.
  rewrite Forall_forall in Hsegs. by apply (Hsegs _ Hin).
Qed.

(** X13.  What a run of [process_records_with_api] may cost.  On a table with
    unique ids the trace of a run is the claim statement, asking for 30
    rows, followed by one segment per started record, and no segment holds
    a further claim.  The started records are the first ones the claim
    returned, in that order, each started once, at most 30.  The segment of
    a record holds events of that record only: at most four backend calls
    and at most one [update_record] call, for the id of the record.  The
    run makes no backend call and, after the claim, runs no transaction
    other than those of the segments. *)
Theorem run_budget conn limit_records :
  NoDup (products_ai.id <$> db conn) →
  ∃ res conn' segs,
    process_records_with_api env conn limit_records = (res, conn')
    ∧ trace conn' = trace conn ++ EvClaim 30 :: segments segs
    ∧ (∀ l, EvClaim l ∉ segments segs)
    ∧ segs.*1 `prefix_of` rec_id <$> (fetch_pending_records env conn 30).1
    ∧ NoDup segs.*1
    ∧ (length segs ≤ 30)%nat
    ∧ Forall (λ s, Forall (record_event s.1) s.2
                   ∧ (length (generated s.2) ≤ 4)%nat
                   ∧ (length (persisted s.2) ≤ 1)%nat) segs
    ∧ api_calls conn' = (api_calls conn + length (generated (segments segs)))%nat
    ∧ db_ops conn'
      = (S (db_ops conn) + length (persisted (segments segs)))%nat.
Proof.
  intros Hnd. unfold process_records_with_api.
  destruct (fetch_pending_records_effect conn 30)
    as (table & records & -> & _ & Hlen).
  destruct (Hlen Hnd) as [Hle Hndr]. change (Z.to_nat 30) with 30%nat in Hle.
  cbn [fst snd].
  set (conn1 := World _ _ _ _).
  destruct records as [|r0 records0].
  { exists None, conn1, []. cbn. rewrite !Nat.add_0_r.
    split_and!;
      first [done | lia | constructor | by intros l ?%elem_of_nil
            | by rewrite <- (assoc_L (++))]. }
  set (records := r0 :: records0) in *.
  pose proof (capped_prefix records limit_records) as Hcap.
  set (capped := match limit_records with Some _ => _ | None => _ end) in *.
  destruct (records_loop_segments 1 (length capped) capped conn1)
    as (res & conn' & segs & -> & Htr & Hpre & Hsegs & Hapi & Hops).
  assert (segs.*1 `prefix_of` rec_id <$> records) as Hpre'.
  { etrans; [exact Hpre|]. destruct Hcap as [post Hpost].
    rewrite Hpost, fmap_app. by eexists. }
  exists res, conn', segs. split_and!.
  - done.
  - rewrite Htr. unfold conn1. cbn. by rewrite <- (assoc_L (++)).
  - intros l. apply segments_no_claim.
    eapply Forall_impl; [exact Hsegs|]. by intros s [? _].
  - done.
  - eapply sublist_NoDup; [exact Hndr|]. by apply prefix_sublist.
  - apply prefix_length in Hpre'. rewrite !length_fmap in Hpre'. lia.
  - done.
  - done.
  - done.
Qed.

(** X14.  A run never writes the id, title, image_data or image_status of a row,
    and never adds, removes or reorders rows. *)
Theorem run_keeps_fixed_columns conn limit_records :
  fixed_part <$> db (process_records_with_api env conn limit_records).2
  = fixed_part <$> db conn.
Proof.
  destruct (process_records_with_api_effect conn limit_records)
    as (res & conn' & evs & -> & _ & _ & _ & _ & _ & _ & _ & Hdb & _).
  cbn [snd]. rewrite (fixed_part_claim_part _ _ Hdb).
  destruct (fetch_pending_records_effect conn 30) as (table & records & -> & Hfix & _).
  done.
Qed.

(** X15.  A run never releases a claim: every row the claim returned carries the
    claim flag when the run ends, whether its record was processed with
    success, failed, was cut off by the cap or was never reached because
    the loop was left by an exception. *)
Theorem claimed_rows_stay_claimed conn limit_records r' :
  r' ∈ db (process_records_with_api env conn limit_records).2 →
  products_ai.id r' ∈ rec_id <$> (fetch_pending_records env conn 30).1 →
  crawl_status r' = Some true.
Proof.
  destruct (process_records_with_api_effect conn limit_records)
    as (res & conn' & evs & -> & _ & _ & _ & _ & _ & _ & _ & Hdb & _).
  cbn [snd]. intros Hr' Hid.
  destruct (claim_part_elem _ _ _ (eq_sym Hdb) Hr') as (r1 & Hr1 & Hc).
  injection Hc as Hi _ _ _ Hcs. rewrite <- Hcs.
  destruct (fetch_pending_records_row conn 30 r1 Hr1) as [[_ ?]|[Hout _]]; [done|].
  destruct Hout. by rewrite Hi.
Qed.

(** X16.  A run makes no row eligible: a row that satisfies the WHERE clause of
    the claim after the run was in the table before the run, unchanged,
    and was not returned by the claim. *)
Theorem eligible_after_run conn limit_records r' :
  r' ∈ db (process_records_with_api env conn limit_records).2 →
  eligible r' →
  r' ∈ db conn
  ∧ products_ai.id r' ∉ rec_id <$> (fetch_pending_records env conn 30).1.
Proof.
  destruct (process_records_with_api_effect conn limit_records)
    as (res & conn' & evs & -> & _ & _ & _ & _ & _ & _ & _ & _ & Hun).
  cbn [snd]. intros Hr' (Hprompt & _ & Hcs).
  apply list_elem_of_lookup in Hr' as [i Hi].
  destruct (Forall2_lookup_r _ _ _ _ _ Hun Hi) as (r1 & Hr1 & [<-|Hw]); [|done].
  apply list_elem_of_lookup_2 in Hr1.
  destruct (fetch_pending_records_row conn 30 r' Hr1) as [[_ Hflag]|(? & ? & _)];
    [congruence|done].
Qed.

(** X17.  When the claim statement runs without fault and at most 30 rows are
    eligible, no row is eligible after the run: a record the run failed on,
    cut off or never reached is not picked up by a later run. *)
Theorem run_exhausts_eligible conn limit_records r' :
  db_fault env (db_ops conn) = None →
  (length (filter eligible (db conn)) ≤ 30)%nat →
  r' ∈ db (process_records_with_api env conn limit_records).2 →
  ¬ eligible r'.
Proof.
  intros Hfault Hlen.
  destruct (process_records_with_api_effect conn limit_records)
    as (res & conn' & evs & -> & _ & _ & _ & _ & _ & _ & _ & _ & Hun).
  cbn [snd]. intros Hr' Hel. pose proof Hel as (Hprompt & _ & Hcs).
  apply list_elem_of_lookup in Hr' as [i Hi].
  destruct (Forall2_lookup_r _ _ _ _ _ Hun Hi) as (r1 & Hr1 & [<-|Hw]); [|done].
  apply list_elem_of_lookup_2 in Hr1.
  destruct (fetch_pending_records_row conn 30 r' Hr1)
    as [[_ Hflag]|(_ & Hin & Hsel)]; [congruence|].
  apply Hsel; [done|unfold bigint_max; lia|]. unfold select_pending.
  rewrite take_ge.
  - rewrite merge_sort_Permutation. apply list_elem_of_fmap_2.
    by apply list_elem_of_filter.
  - rewrite merge_sort_Permutation, length_fmap.
    change (Z.to_nat 30) with 30%nat. lia.
Qed.

(** X18.  When the claim transaction fails, or no row is eligible, the run ends
    after the claim: no backend call, no persist call, no exception, and the
    table as it was. *)
Theorem no_work_without_claim conn limit_records :
  is_Some (db_fault env (db_ops conn)) ∨ (∀ r, r ∈ db conn → ¬ eligible r) →
  process_records_with_api env conn limit_records
  = (None, World (db conn) (api_calls conn) (S (db_ops conn))
                 (trace conn ++ [EvClaim 30])).
Proof.
  intros Hno. unfold process_records_with_api.
  destruct (decide (is_Some (db_fault env (db_ops conn)))) as [Hf|Hok].
  { by rewrite (fetch_pending_records_fault env conn 30 (or_introl Hf)). }
  destruct Hno as [Hf|Hno]; [done|].
  rewrite fetch_pending_records_ok;
    [|destruct (db_fault env (db_ops conn)); [destruct Hok; eauto|done]
     |unfold bigint_max; lia].
  by rewrite update_returning_none by by apply select_pending_none_eligible.
Qed.

(** X19.  When no response makes the display of the two parts raise, every text
    a run hands to [update_record] is the cleaned text of a response that
    the backend gave to the prompt of that record and that passed the
    validation block, and the record is one the claim returned. *)
Theorem persisted_payloads_passed_validation conn limit_records :
  (∀ n p t e, generate_content env n p = Response t →
     validate_response env (clean_json_response t) t ≠ ValidationRaised true e) →
  ∃ res conn' evs,
    process_records_with_api env conn limit_records = (res, conn')
    ∧ trace conn' = trace conn ++ EvClaim 30 :: evs
    ∧ ∀ i payload, (i, payload) ∈ persisted evs →
        ∃ r p n t,
          r ∈ (fetch_pending_records env conn 30).1
          ∧ rec_id r = i
          ∧ generate_prompt_text env r = Some p
          ∧ generate_content env n p = Response t
          ∧ validate_response env (clean_json_response t) t = ValidationPassed
          ∧ payload = clean_json_response t.
Proof.
  intros Hnarr.
  destruct (process_records_with_api_effect conn limit_records)
    as (res & conn' & evs & Hrun & Htr & _ & _ & _ & _ & _ & Hid & _).
  exists res, conn', evs. split; [done|]. split; [done|].
  intros i payload Hx.
  destruct (Hid _ Hx) as (r & p & l & w0 & w1 & Hr & Hp & Hloop & Hflag & Heq).
  injection Heq as -> ->.
  destruct (valid_flag_means_validated env p _ (Locals false "") _ _ _ eq_refl
              (λ n t e, Hnarr n p t e) Hloop Hflag) as (n & t & Hgen & Hv & Hc).
  by exists r, p, n, t.
Qed.

End Run.

(** * Recovery and abort inside the loop *)

Section Recovery.

Context (env : environment).

Lemma attempt_passes p i l w a :
  generate_content env (api_calls w) p = Response a →
  validate_response env (clean_json_response a) a = ValidationPassed →
  attempt env p i l w
    = (Break, Locals true (clean_json_response a),
       World (db w) (S (api_calls w)) (db_ops w) (trace w ++ attempt_events p i)).
Proof.
  intros Hgen Hv. unfold attempt, attempt_events.
  assert (api_calls (if (0 <? i)%nat then emit (EvSleep 3) w else w) = api_calls w)
    as -> by by destruct (0 <? i)%nat.
  rewrite Hgen, Hv.
  destruct (0 <? i)%nat; destruct w; unfold emit; simpl;
    by rewrite <- ?(assoc_L (++)).
Qed.

(** The loop stops at the first attempt that passes; the attempts after it
    are not made. *)
Lemma retry_loop_recovers p pre i post l w a :
  Forall (λ i, (i < max_prompt_retries - 1)%nat) pre →
  (∀ j, (j < length pre)%nat → not_passed env p (api_calls w + j)) →
  generate_content env (api_calls w + length pre) p = Response a →
  validate_response env (clean_json_response a) a = ValidationPassed →
  ∃ evs,
    retry_loop env p (pre ++ i :: post) l w
      = (inr (Locals true (clean_json_response a)),
         World (db w) (api_calls w + S (length pre)) (db_ops w) (trace w ++ evs))
    ∧ Forall session_event evs.
Proof.
  intros Hpre. revert l w.
  induction Hpre as [|i0 pre Hi Hpre IH]; intros l w Hnp Hgen Hv.
  { simpl in *. rewrite Nat.add_0_r in Hgen.
    rewrite (attempt_passes _ _ _ _ _ Hgen Hv). exists (attempt_events p i).
    rewrite Nat.add_1_r. split; [done|apply session_event_attempt_events]. }
  cbn [app retry_loop].
  destruct (attempt_continue env p i0 l w Hi) as (l' & evs1 & -> & Hevs1).
  { specialize (Hnp 0%nat). rewrite Nat.add_0_r in Hnp. apply Hnp. simpl. lia. }
  edestruct IH as (evs & -> & Hevs).
  { intros j Hj. cbn [api_calls]. rewrite Nat.add_succ_comm. apply Hnp. simpl. lia. }
  { cbn [api_calls]. rewrite Nat.add_succ_comm. apply Hgen. }
  { done. }
  assert (Forall session_event ((attempt_events p i0 ++ evs1) ++ evs)) as HF
    by (rewrite !Forall_app; auto using session_event_attempt_events).
  exists ((attempt_events p i0 ++ evs1) ++ evs). split; [|done]. cbn.
  by rewrite <- !(assoc_L (++)), !Nat.add_succ_r.
Qed.

Lemma records_loop_app idx total (l1 l2 : list record) w :
  records_loop env idx total (l1 ++ l2) w
  = match records_loop env idx total l1 w with
    | (Some e, w') => (Some e, w')
    | (None, w') => records_loop env (idx + length l1) total l2 w'
    end.
Proof.
  revert idx w. induction l1 as [|r l1 IH]; intros idx w.
  { simpl. by rewrite Nat.add_0_r. }
  cbn [app records_loop length].
  destruct (process_record env idx total r w) as [[e|] w1]; [done|].
  by rewrite IH, Nat.add_succ_comm.
Qed.

(** X20.  Retry recovers.  When the first [k] attempts of a record (fewer than
    four) do not pass and the next one does, the record costs exactly
    [k + 1] backend calls, all with its prompt; [update_record] is then
    called once, with the cleaned text of the response that passed, and
    nothing is raised. *)
Theorem success_after_failures idx total (r : record) w t p k a :
  rec_title r = Some t →
  generate_prompt_text env r = Some p →
  (k < max_prompt_retries)%nat →
  (∀ j, (j < k)%nat → not_passed env p (api_calls w + j)) →
  generate_content env (api_calls w + k) p = Response a →
  validate_response env (clean_json_response a) a = ValidationPassed →
  ∃ evs,
    process_record env idx total r w
      = (None,
         pace idx total
           (update_record env
              (World (db w) (api_calls w + S k) (db_ops w)
                     (trace w ++ EvRecord (rec_id r) :: evs))
              (rec_id r) (clean_json_response a)))
    ∧ generated evs = replicate (S k) p
    ∧ persisted evs = []
    ∧ started evs = [].
Proof.
  intros Ht Hp Hk Hnp Hgen Hv.
  rewrite (process_record_unfold env _ _ _ _ _ _ Ht Hp).
  assert (seq 0 max_prompt_retries
          = seq 0 k ++ k :: seq (S k) (max_prompt_retries - S k)) as ->.
  { replace max_prompt_retries with (k + S (max_prompt_retries - S k))%nat at 1
      by lia.
    by rewrite seq_app. }
  set (w0 := emit (EvRecord (rec_id r)) w).
  destruct (retry_loop_recovers p (seq 0 k) k
              (seq (S k) (max_prompt_retries - S k)) (Locals false "") w0 a)
    as (evs & Hloop & _).
  { apply Forall_forall. intros j Hj%elem_of_seq.
    unfold max_prompt_retries in *. lia. }
  { intros j Hj. rewrite length_seq in Hj. by apply Hnp. }
  { by rewrite length_seq. }
  { done. }
  destruct (retry_loop_effect env p
              (seq 0 k ++ k :: seq (S k) (max_prompt_retries - S k))
              (Locals false "") w0)
    as (res & calls & evs' & Hloop' & _ & Hg & Hpers & Hst).
  rewrite Hloop in Hloop'. injection Hloop' as _ Hcalls Htrace.
  apply (inj (app (trace w0))) in Htrace as <-.
  rewrite length_seq in Hcalls. assert (calls = S k) as -> by lia.
  rewrite Hloop. cbn [valid_response_received cleaned_response].
  exists evs. split; [|done].
  unfold w0. cbn [emit db api_calls db_ops trace length].
  by rewrite length_seq, <- (assoc_L (++)).
Qed.

(** X21.  A record without title ends the loop.  The records before it are
    processed; its own processing stops at the display of the title, with a
    [TypeError] that leaves the loop; the records after it are never
    started. *)
Theorem untitled_record_aborts idx total (pre post : list record) (r : record) w :
  (∀ rec, rec ∈ pre → rec_title rec ≠ None) →
  rec_title r = None →
  ∃ w' evs,
    records_loop env idx total (pre ++ r :: post) w
      = (Some (Exc "TypeError" "object of type 'NoneType' has no len()"), w')
    ∧ trace w' = trace w ++ evs ++ [EvRecord (rec_id r)]
    ∧ started evs = rec_id <$> pre.
Proof.
  intros Hpre Hr. rewrite records_loop_app.
  destruct (records_loop_spec env idx total pre w)
    as (res & w1 & evs & -> & Htr & _ & _ & _ & Hall).
  destruct (Hall Hpre) as [-> Hst].
  cbn [records_loop]. rewrite (missing_title_raises env _ _ _ _ Hr).
  exists (emit (EvRecord (rec_id r)) w1), evs. split; [done|].
  split; [|done]. cbn [emit trace]. by rewrite Htr, <- (assoc_L (++)).
Qed.

End Recovery.

(** * The entry point *)

Section Main.

Context (env : environment).

Lemma load_cookies_from_env_truthy environ c :
  load_cookies_from_env environ = Some c → truthy (Some c) = true.
Proof.
  unfold load_cookies_from_env. destruct (decide (_ = "")); [done|].
  destruct (decide (_ = ∅)) as [|Hne]; [done|]. intros [= <-].
  by apply bool_decide_eq_true_2.
Qed.

(** The cookies [main] goes on with: those of the environment when there
    are any, else those of the file when it can be read. *)
Lemma main_cookies (job : world → option exception * world) (h : host) :
  ∃ cookies,
    main_with job h
    = (if negb (truthy cookies) then (None, [], None)
       else
         match cookies ≫= (.!! "__Secure-1PSID") with
         | None => (None, [], None)
         | Some secure_1psid =>
             match get_db_connection h with
             | None => (None, [], None)
             | Some conn =>
                 match client_init h with
                 | Some _ => (None, [LcConnect; LcConnClose], Some conn)
                 | None =>
                     let '(raised, conn) := job conn in
                     let lc := [LcConnect;
                                LcClientInit secure_1psid
                                  (cookies ≫= (.!! "__Secure-1PSIDTS"));
                                LcProcess raised] in
                     match client_close h with
                     | Some e => (Some e, lc, Some conn)
                     | None =>
                         (match raised with
                          | Some e => if caught_by_main e then None else Some e
                          | None => None
                          end,
                          lc ++ [LcClientClose; LcConnClose], Some conn)
                     end
                 end
             end
         end)
    ∧ (cookies = load_cookies_from_env (os_environ h) ∧ truthy cookies = true
       ∨ load_cookies_from_env (os_environ h) = None
         ∧ match load_cookies_from_file (os_files h) (COOKIES_FILE h) with
           | inr c => cookies = Some c
           | inl _ => cookies = None
           end).
Proof.
  unfold main_with.
  destruct (load_cookies_from_env (os_environ h)) as [c|] eqn:Henv.
  - rewrite (load_cookies_from_env_truthy _ _ Henv). exists (Some c).
    split; [done|]. left. split; [done|]. by eapply load_cookies_from_env_truthy.
  - cbn [truthy].
    destruct (load_cookies_from_file (os_files h) (COOKIES_FILE h)) as [e|c];
      eexists; (split; [done|]); by right.
Qed.

(** X22.  The environment takes precedence: when [GEMINI_COOKIES] yields cookies,
    the cookie file is not consulted, whatever it holds and whether or not
    it exists. *)
Theorem main_prefers_environment (h : host) (files : gmap string string) (path : string) :
  is_Some (load_cookies_from_env (os_environ h)) →
  main env (Host (os_environ h) files path (connect h) (client_init h)
                 (client_close h))
  = main env h.
Proof.
  intros [c Hc]. unfold main, main_with. cbn [os_environ os_files COOKIES_FILE
    connect client_init client_close get_db_connection].
  by rewrite Hc, (load_cookies_from_env_truthy _ _ Hc).
Qed.

(** X23.  Without the session cookie nothing is touched: when neither the
    environment nor the file yields a value for [__Secure-1PSID], [main]
    returns without opening a database connection, creating a client or
    raising. *)
Theorem main_without_session_cookie (h : host) :
  (∀ c, load_cookies_from_env (os_environ h) = Some c →
        c !! "__Secure-1PSID" = None) →
  (∀ c, load_cookies_from_file (os_files h) (COOKIES_FILE h) = inr c →
        c !! "__Secure-1PSID" = None) →
  main env h = (None, [], None).
Proof.
  intros Henv Hfile. unfold main.
  destruct (main_cookies (λ conn, process_records_with_api env conn None) h)
    as (cookies & -> & Hsrc).
  destruct (truthy cookies) eqn:Htruthy; [|done]. cbn [negb].
  assert (cookies ≫= (.!! "__Secure-1PSID") = None) as ->; [|done].
  destruct cookies as [c|]; [|done]. cbn.
  destruct Hsrc as [[Hc _]|[_ Hc]]; [by apply Henv|].
  destruct (load_cookies_from_file _ _) as [e|c'] eqn:Hf; [done|].
  injection Hc as ->. by apply Hfile.
Qed.

(** X24.  The client gets the parsed credentials.  Whenever [main] gets a
    client initialised, its two arguments are the values of [__Secure-1PSID] and
    [__Secure-1PSIDTS] in one and the same mapping: that of the environment,
    or, when the environment yields none, that of the cookie file. *)
Theorem main_client_credentials (h : host) secure_1psid secure_1psidts :
  LcClientInit secure_1psid secure_1psidts ∈ (main env h).1.2 →
  ∃ cookies,
    (load_cookies_from_env (os_environ h) = Some cookies
     ∨ load_cookies_from_env (os_environ h) = None
       ∧ load_cookies_from_file (os_files h) (COOKIES_FILE h) = inr cookies)
    ∧ cookies !! "__Secure-1PSID" = Some secure_1psid
    ∧ cookies !! "__Secure-1PSIDTS" = secure_1psidts.
Proof.
  unfold main.
  destruct (main_cookies (λ conn, process_records_with_api env conn None) h)
    as (cookies & -> & Hsrc).
  destruct (truthy cookies) eqn:Htruthy; cbn [negb];
    [|by intros ?%elem_of_nil].
  destruct cookies as [c|]; [|done]. cbn [mbind option_bind].
  destruct (c !! "__Secure-1PSID") as [v|] eqn:Hv; [|by intros ?%elem_of_nil].
  destruct (get_db_connection h) as [conn|]; [|by intros ?%elem_of_nil].
  assert (load_cookies_from_env (os_environ h) = Some c
          ∨ load_cookies_from_env (os_environ h) = None
            ∧ load_cookies_from_file (os_files h) (COOKIES_FILE h) = inr c) as Hc.
  { destruct Hsrc as [[Hc _]|[Hnone Hc]]; [by left|right].
    split; [done|]. destruct (load_cookies_from_file _ _); [done|].
    by injection Hc as ->. }
  destruct (client_init h).
  { cbn. intros Hin. apply elem_of_cons in Hin as [?|Hin]; [done|].
    apply elem_of_cons in Hin as [?|Hin]; [done|]. by apply elem_of_nil in Hin. }
  destruct (process_records_with_api env conn None) as [raised conn'].
  assert (∀ tl, (∀ x, x ∈ tl → x = LcClientClose ∨ x = LcConnClose) →
    LcClientInit secure_1psid secure_1psidts
      ∈ [LcConnect; LcClientInit v (c !! "__Secure-1PSIDTS"); LcProcess raised] ++ tl →
    v = secure_1psid ∧ c !! "__Secure-1PSIDTS" = secure_1psidts) as Hlc.
  { intros tl Htl Hin. cbn in Hin.
    apply elem_of_cons in Hin as [?|Hin]; [done|].
    apply elem_of_cons in Hin as [[= -> ->]|Hin]; [done|].
    apply elem_of_cons in Hin as [?|Hin]; [done|].
    by destruct (Htl _ Hin). }
  destruct (client_close h); cbn [fst snd]; intros Hin.
  - destruct (Hlc [] (λ x Hx, False_rect _ (proj1 (elem_of_nil x) Hx)))
      as [-> <-]; [by rewrite app_nil_r|by exists c].
  - destruct (Hlc [LcClientClose; LcConnClose]) as [-> <-]; [|done|by exists c].
    intros x Hx. apply elem_of_cons in Hx as [->|Hx]; [by left|].
    apply elem_of_cons in Hx as [->|Hx]; [by right|]. by apply elem_of_nil in Hx.
Qed.


(** A cancellation of the job leaves [main] after the cleanup; an error of
    the job does not leave it. *)
Example main_cancelled :
  main_with (λ conn, (Some (Exc "CancelledError" "cancelled"), conn)) ci_host
  = (Some (Exc "CancelledError" "cancelled"),
     [LcConnect; LcClientInit "abc" (Some "def");
      LcProcess (Some (Exc "CancelledError" "cancelled"));
      LcClientClose; LcConnClose],
     Some (fresh two_pending))
  ∧ main_with (λ conn, (Some (Exc "ValueError" "bad"), conn)) ci_host
    = (None,
       [LcConnect; LcClientInit "abc" (Some "def");
        LcProcess (Some (Exc "ValueError" "bad"));
        LcClientClose; LcConnClose],
       Some (fresh two_pending)).
Proof. split; by vm_compute. Qed.

(** X26.  Whatever [main] does to the table of the connection it opened, the id,
    title, image_data and image_status of every row, and the number and
    order of the rows, are as it found them. *)
Theorem main_keeps_fixed_columns (h : host) conn conn' :
  connect h = Some conn →
  (main env h).2 = Some conn' →
  fixed_part <$> db conn' = fixed_part <$> db conn.
Proof.
  intros Hconn. unfold main.
  destruct (main_cookies (λ conn, process_records_with_api env conn None) h)
    as (cookies & -> & _).
  unfold get_db_connection. rewrite Hconn.
  destruct (truthy cookies); cbn [negb]; [|done].
  destruct (cookies ≫= (.!! "__Secure-1PSID")); [|done].
  destruct (client_init h); [by intros [= <-]|].
  destruct (process_records_with_api_effect env conn None)
    as (res & conn1 & evs & -> & _ & _ & _ & _ & _ & _ & _ & Hdb & _).
  destruct (fetch_pending_records_effect env conn 30)
    as (table & records & Hfetch & Hfix & _).
  rewrite Hfetch in Hdb. cbn [snd db] in Hdb.
  assert (fixed_part <$> db conn1 = fixed_part <$> db conn) as Hres
    by by rewrite (fixed_part_claim_part _ _ Hdb).
  destruct (client_close h); by intros [= <-].
Qed.

End Main.

(** * The further theorems at explicit inputs *)

Lemma load_cookies_from_file_result_witness :
  load_cookies_from_file {[ "cookies.txt" := " no cookies here; " ]} "cookies.txt"
    = inr (cookie_mapping " no cookies here; ")
  ∧ load_cookies_from_file {[ "cookies.txt" := " no cookies here; " ]} "cookies.txt"
    = inr ∅.
Proof.
  destruct (load_cookies_from_file_result
              {[ "cookies.txt" := " no cookies here; " ]} "cookies.txt"
              " no cookies here; ") as [Hmap Hempty].
  - reflexivity.
  - split; [exact Hmap|]. apply Hempty. reflexivity.
Defined.

Lemma cookie_lookup_last_witness :
  cookie_mapping "A=1; B=2 ;A=3" !! "A"
  = snd <$> last (filter (λ kv, kv.1 = "A") (cookie_pairs "A=1; B=2 ;A=3")).
Proof.
  apply (cookie_lookup_last "A=1; B=2 ;A=3").
  right. exists {[ "cookies.txt" := "A=1; B=2 ;A=3" ]}, "cookies.txt".
  split; vm_compute; reflexivity.
Defined.

Lemma cookie_entry_origin_witness :
  ∃ segment,
    segment ∈ PyStr.split ";" " A=1=2 ;junk; B = x ;"
    ∧ PyStr.strip segment = "A" +:+ String "=" "1=2"
    ∧ PyStr.index_of "=" "A" = None.
Proof.
  apply (cookie_entry_origin " A=1=2 ;junk; B = x ;"
           (cookie_mapping " A=1=2 ;junk; B = x ;")).
  - left. exists {[ "GEMINI_COOKIES" := " A=1=2 ;junk; B = x ;" ]}.
    split; vm_compute; reflexivity.
  - vm_compute. reflexivity.
Defined.

Lemma run_budget_witness :
  ∃ res conn' segs,
    process_records_with_api always_good (fresh three_pending) None = (res, conn')
    ∧ trace conn' = trace (fresh three_pending) ++ EvClaim 30 :: segments segs
    ∧ (∀ l, EvClaim l ∉ segments segs)
    ∧ segs.*1
        `prefix_of` rec_id <$> (fetch_pending_records always_good
                                  (fresh three_pending) 30).1
    ∧ NoDup segs.*1
    ∧ (length segs ≤ 30)%nat
    ∧ Forall (λ s, Forall (record_event s.1) s.2
                   ∧ (length (generated s.2) ≤ 4)%nat
                   ∧ (length (persisted s.2) ≤ 1)%nat) segs
    ∧ api_calls conn'
      = (api_calls (fresh three_pending) + length (generated (segments segs)))%nat
    ∧ db_ops conn'
      = (S (db_ops (fresh three_pending))
         + length (persisted (segments segs)))%nat.
Proof.
  apply (run_budget always_good (fresh three_pending) None).
  apply (bool_decide_unpack _). vm_compute. exact I.
Defined.

Lemma claimed_rows_stay_claimed_witness :
  let r := Row 2 (Some "B") (Some "img") (Some true) (Some true) None None in
  r ∈ db (process_records_with_api always_garbage (fresh two_pending) None).2
  ∧ crawl_status r = Some true.
Proof.
  intros r.
  assert (r ∈ db (process_records_with_api always_garbage (fresh two_pending) None).2)
    as Hin by (vm_compute; apply list_elem_of_further, list_elem_of_here).
  split; [exact Hin|].
  apply (claimed_rows_stay_claimed always_garbage (fresh two_pending) None r Hin).
  apply (bool_decide_unpack _). vm_compute. exact I.
Defined.

Lemma eligible_after_run_witness :
  pending 1 (Some "A") ∈ db (fresh two_pending)
  ∧ 1 ∉ rec_id <$> (fetch_pending_records db_down (fresh two_pending) 30).1.
Proof.
  apply (eligible_after_run db_down (fresh two_pending) None (pending 1 (Some "A"))).
  - vm_compute. apply list_elem_of_here.
  - vm_compute. repeat split.
Defined.

Lemma run_exhausts_eligible_witness :
  db_fault always_garbage (db_ops (fresh two_pending)) = None
  ∧ ¬ eligible (Row 1 (Some "A") (Some "img") (Some true) (Some true) None None).
Proof.
  split; [reflexivity|].
  apply (run_exhausts_eligible always_garbage (fresh two_pending) None).
  - reflexivity.
  - vm_compute. lia.
  - vm_compute. apply list_elem_of_here.
Defined.

Lemma no_work_without_claim_witness :
  process_records_with_api always_good (fresh all_done) None
  = (None, World all_done 0 1 [EvClaim 30]).
Proof.
  apply (no_work_without_claim always_good (fresh all_done) None).
  right. apply Forall_forall, (bool_decide_unpack _). vm_compute. exact I.
Defined.

Lemma persisted_payloads_passed_validation_witness :
  ∃ res conn' evs,
    process_records_with_api always_good (fresh two_pending) None = (res, conn')
    ∧ trace conn' = trace (fresh two_pending) ++ EvClaim 30 :: evs
    ∧ ∀ i payload, (i, payload) ∈ persisted evs →
        ∃ r p n t,
          r ∈ (fetch_pending_records always_good (fresh two_pending) 30).1
          ∧ rec_id r = i
          ∧ generate_prompt_text always_good r = Some p
          ∧ generate_content always_good n p = Response t
          ∧ validate_response always_good (clean_json_response t) t
            = ValidationPassed
          ∧ payload = clean_json_response t.
Proof.
  apply (persisted_payloads_passed_validation always_good (fresh two_pending) None).
  intros n p t e Hgen.
  destruct n as [|[|[|n]]]; cbn in Hgen; [..|discriminate];
    injection Hgen as <-; vm_compute; discriminate.
Defined.

Lemma success_after_failures_witness :
  ∃ evs,
    process_record flaky 1 2 record_A (fresh [])
      = (None,
         pace 1 2
           (update_record flaky
              (World [] 3 0 ([] ++ EvRecord 1 :: evs)) 1 good_payload))
    ∧ generated evs = replicate 3 (prompt_for "A")
    ∧ persisted evs = []
    ∧ started evs = [].
Proof.
  apply (success_after_failures flaky 1 2 record_A (fresh []) "A"
           (prompt_for "A") 2 good_answer).
  - reflexivity.
  - reflexivity.
  - unfold max_prompt_retries. lia.
  - intros j Hj. destruct j as [|[|j]]; [..|lia]; vm_compute; [discriminate|exact I].
  - reflexivity.
  - vm_compute. reflexivity.
Defined.

Lemma untitled_record_aborts_witness :
  ∃ w' evs,
    records_loop always_good 1 3 ([record_A] ++ record_untitled :: [record_B])
                 (fresh [])
      = (Some (Exc "TypeError" "object of type 'NoneType' has no len()"), w')
    ∧ trace w' = trace (fresh []) ++ evs ++ [EvRecord (rec_id record_untitled)]
    ∧ started evs = rec_id <$> [record_A].
Proof.
  apply (untitled_record_aborts always_good 1 3 [record_A] [record_B]
           record_untitled (fresh [])).
  - intros rec ->%list_elem_of_singleton. discriminate.
  - reflexivity.
Defined.

Lemma main_prefers_environment_witness :
  main always_good
    (Host (os_environ ci_host) {[ "cookies.txt" := "NID=1" ]} "cookies.txt"
          (connect ci_host) (client_init ci_host) (client_close ci_host))
  = main always_good ci_host.
Proof.
  apply (main_prefers_environment always_good ci_host).
  apply (bool_decide_unpack _). vm_compute. exact I.
Defined.

Lemma main_without_session_cookie_witness :
  main always_good anonymous_host = (None, [], None).
Proof.
  apply (main_without_session_cookie always_good anonymous_host).
  - intros c Hc. vm_compute in Hc. discriminate.
  - intros c Hc. vm_compute in Hc. injection Hc as <-. reflexivity.
Defined.

Lemma main_client_credentials_witness :
  ∃ cookies,
    (load_cookies_from_env (os_environ ci_host) = Some cookies
     ∨ load_cookies_from_env (os_environ ci_host) = None
       ∧ load_cookies_from_file (os_files ci_host) (COOKIES_FILE ci_host)
         = inr cookies)
    ∧ cookies !! "__Secure-1PSID" = Some "abc"
    ∧ cookies !! "__Secure-1PSIDTS" = Some "def".
Proof.
  apply (main_client_credentials always_good ci_host "abc" (Some "def")).
  vm_compute. apply list_elem_of_further, list_elem_of_here.
Defined.

Lemma main_keeps_fixed_columns_witness :
  fixed_part <$> db (process_records_with_api always_good (fresh two_pending) None).2
  = fixed_part <$> db (fresh two_pending).
Proof.
  apply (main_keeps_fixed_columns always_good ci_host).
  - reflexivity.
  - vm_compute. reflexivity.
Defined.
